(** * presenterm: scripts/migrate-theme.py

    A shallow embedding of the theme migration filter and the properties of
    its line rewrite.  The script reads lines from standard input, rewrites
    the legacy colour notation ["rgb_(R,G,B)"] into a hexadecimal colour and
    writes every line to standard output.

    The embedding follows the script function by function ([as_hex],
    [migrate_color], [migrate], the top-level loop).  The Python built-ins
    the script calls ([re.match], [int], the [02x] format, [str.join],
    [str.replace]) are modelled next to it, each restricted to the features
    the script uses. *)

From Stdlib Require Import String Ascii List Arith NArith Bool Lia.
From Equations Require Import Equations.
Import ListNotations.

Set Implicit Arguments.

(** ** Python strings

    A Python [str] is a sequence of Unicode code points.  A code point is
    kept as its number, so that the lines of the model are not restricted to
    one byte per character. *)

Definition char := N.
Definition str := list char.

Definition ord (a : ascii) : char := N_of_ascii a.

(** [py "abc"] is the Python string literal ["abc"]. *)
Fixpoint py (s : string) : str :=
  match s with
  | EmptyString => []
  | String a s' => ord a :: py s'
  end.
Arguments py s%_string_scope.

Definition newline : char := 10%N.
Definition quote : char := 34%N.

(** [quoted s] is [s] between two double quotes. *)
Definition quoted (s : str) : str := quote :: s ++ [quote].

(** [startswith old s] is [s.startswith(old)]. *)
Fixpoint startswith (old s : str) : bool :=
  match old, s with
  | [], _ => true
  | x :: old', y :: s' => N.eqb x y && startswith old' s'
  | _ :: _, [] => false
  end.

(** ** Exceptions

    A call either returns a value or raises.  Only the two exceptions that
    the calls of the script can raise are named. *)

Inductive exn : Set := ValueError | TypeError.

Inductive result (A : Type) : Type :=
| Ok (a : A)
| Raise (e : exn).
Arguments Raise {A} e.

Definition bind {A B : Type} (m : result A) (f : A -> result B) : result B :=
  match m with
  | Ok a => f a
  | Raise e => Raise e
  end.

Notation "x <- m ;; k" := (bind m (fun x => k))
  (at level 61, m at next level, right associativity).

(** ** The interpreter

    Two facts about the interpreter that runs the script are not fixed by
    the script itself.

    - [unicode_decimal]: the decimal digit value of a non-ASCII code point
      in the interpreter's Unicode database (category Nd), [None] for the
      code points that are not decimal digits.  Both [\d] in a [str]
      pattern and [int] consult this table.
    - [max_str_digits]: [sys.get_int_max_str_digits()], the bound on the
      number of digits [int] accepts in a string.  CPython sets it to 4300
      by default (since 3.11, and in the security releases of 3.7 to 3.10);
      0 disables the bound. *)

Record runtime : Type := {
  unicode_decimal : char -> option N;
  max_str_digits : nat
}.

(** CPython's [sys.int_info.str_digits_check_threshold]: shorter digit
    strings are never checked against [max_str_digits]. *)
Definition str_digits_check_threshold : nat := 640.

(** The default configuration: the integer string limit of 4300 digits.  Of
    the non-ASCII decimal digits only the ARABIC-INDIC DIGITs U+0660 to
    U+0669 are listed. *)
Definition arabic_indic (c : char) : option N :=
  if ((1632 <=? c) && (c <=? 1641))%N then Some (c - 1632)%N else None.

Definition cpython_default : runtime :=
  {| unicode_decimal := arabic_indic; max_str_digits := 4300 |}.

Section Interpreter.

Variable rt : runtime.

(** [to_decimal c] is the decimal digit value of [c]; in the ASCII range the
    decimal digits are ['0'] to ['9'] in every version of Unicode. *)
Definition to_decimal (c : char) : option N :=
  if (c <? 128)%N then
    if ((48 <=? c) && (c <=? 57))%N then Some (c - 48)%N else None
  else unicode_decimal rt c.

Definition isdecimal (c : char) : bool :=
  match to_decimal c with Some _ => true | None => false end.

(** ** Regular expressions

    The fragment of [re] patterns that the script's pattern is written in:
    one-character atoms, greedy repetition of an atom, numbered groups and
    concatenation. *)

Inductive atom : Type :=
| Lit (c : char)     (* the character itself, escaped or not *)
| Dot                (* [.]: any character but a newline *)
| Digit.             (* [[\d]]: a decimal digit *)

Inductive regex : Type :=
| Empty
| One (a : atom)
| Star (a : atom)                 (* [a*], greedy *)
| Plus (a : atom)                 (* [a+], greedy *)
| Group (n : nat) (r : regex)     (* [( r )], the group numbered [n] *)
| Cat (r1 r2 : regex).

Definition atom_matches (a : atom) (c : char) : bool :=
  match a with
  | Lit x => N.eqb c x
  | Dot => negb (N.eqb c newline)
  | Digit => isdecimal c
  end.

(** The groups of a match: the text each numbered group matched last. *)
Definition groups := list (nat * str).

Fixpoint group (n : nat) (g : groups) : option str :=
  match g with
  | [] => None
  | (m, s) :: g' => if Nat.eqb n m then Some s else group n g'
  end.

(** The matcher is the backtracking matcher of [re], in continuation
    passing style: [exec r s g k] matches [r] at the start of [s] and hands
    the rest of the input and the groups to [k]; when [k] fails, the next
    alternative of [r] is tried.

    [repeat_greedy a s k] is the greedy repetition of the atom [a]: it takes
    as many characters as [a] allows, then gives them back one by one until
    [k] succeeds. *)
Fixpoint repeat_greedy (A : Type) (a : atom) (s : str)
         (k : str -> option A) : option A :=
  match s with
  | c :: s' =>
      if atom_matches a c then
        match repeat_greedy a s' k with
        | Some res => Some res
        | None => k s
        end
      else k s
  | [] => k []
  end.

Fixpoint exec (r : regex) (s : str) (g : groups)
         (k : str -> groups -> option groups) : option groups :=
  match r with
  | Empty => k s g
  | One a =>
      match s with
      | c :: s' => if atom_matches a c then k s' g else None
      | [] => None
      end
  | Star a => repeat_greedy a s (fun s' => k s' g)
  | Plus a =>
      match s with
      | c :: s' =>
          if atom_matches a c then repeat_greedy a s' (fun s'' => k s'' g)
          else None
      | [] => None
      end
  | Group n r1 =>
      exec r1 s g
           (fun s' g' =>
              k s' ((n, firstn (length s - length s') s) :: g'))
  | Cat r1 r2 => exec r1 s g (fun s' g' => exec r2 s' g' k)
  end.

(** [re_match pattern line] is [re.match(pattern, line)]: the pattern is
    matched at the start of [line] only, and need not reach its end. *)
Definition re_match (pattern : regex) (line : str) : option groups :=
  exec pattern line [] (fun _ g => Some g).

(** The text of a pattern without special characters. *)
Fixpoint text (s : str) : regex :=
  match s with
  | [] => Empty
  | c :: s' => Cat (One (Lit c)) (text s')
  end.

Fixpoint cat (rs : list regex) : regex :=
  match rs with
  | [] => Empty
  | r :: rs' => Cat r (cat rs')
  end.

(** ** Built-in functions *)

(** The value of a string of decimal digits, most significant first. *)
Fixpoint decimal_value (acc : N) (s : str) : option N :=
  match s with
  | [] => Some acc
  | c :: s' =>
      match to_decimal c with
      | Some d => decimal_value (10 * acc + d)%N s'
      | None => None
      end
  end.

(** [int number_str], for the strings the pattern can capture: on a
    non-empty string of decimal digits the result is its base-10 value,
    unless the string is longer than the check threshold and than the
    interpreter's limit, which raises [ValueError].  (Signs, surrounding
    white space and underscores, which [int] also accepts, are left out;
    [[\d]+] captures none of them.) *)
Definition int (number_str : str) : result N :=
  match number_str with
  | [] => Raise ValueError
  | _ :: _ =>
      match decimal_value 0%N number_str with
      | None => Raise ValueError
      | Some number =>
          let digits := length number_str in
          if Nat.ltb str_digits_check_threshold digits
             && Nat.ltb 0 (max_str_digits rt)
             && Nat.ltb (max_str_digits rt) digits
          then Raise ValueError
          else Ok number
      end
  end.

End Interpreter.

(** The lowercase hexadecimal digit of a value below 16. *)
Definition hex_digit (d : N) : char :=
  if (d <? 10)%N then (48 + d)%N else (87 + d)%N.

(** [format_x number] is [format(number, "x")] for a number that is not
    negative: its hexadecimal digits, most significant first. *)
Equations? format_x (number : N) : str by wf (N.to_nat (N.log2 number)) lt :=
  format_x number with N.eq_dec (number / 16) 0 := {
    | left _ => [hex_digit number]
    | right _ => format_x (number / 16) ++ [hex_digit (number mod 16)] }.
Proof.
  assert (16 <= number)%N as H16.
  { destruct (N.lt_ge_cases number 16) as [L|L]; [|exact L].
    apply N.div_small in L. contradiction. }
  change 16%N with (2 ^ 4)%N.
  rewrite <- N.shiftr_div_pow2, N.log2_shiftr.
  apply N.log2_le_mono in H16. change (N.log2 16) with 4%N in H16. lia.
Qed.

(** [zfill width s] pads [s] on the left with ['0'] up to [width]. *)
Definition zfill (width : nat) (s : str) : str :=
  repeat 48%N (width - length s) ++ s.

(** [format_02x number] is the f-string [f"{number:02x}"]. *)
Definition format_02x (number : N) : str := zfill 2 (format_x number).

(** [join l] is [str.join] on the empty separator: the concatenation of
    the strings of [l]. *)
Definition join (l : list str) : str := concat l.

(** [replace old new s] is [s.replace(old, new)]: every occurrence of [old]
    in [s], found from left to right and not overlapping an earlier one, is
    replaced by [new].  [replace_from] scans [s]; [skip] counts the
    characters of an occurrence that are still to be dropped. *)
Fixpoint replace_from (old new : str) (skip : nat) (s : str) : str :=
  match s with
  | [] => []
  | c :: s' =>
      match skip with
      | S n => replace_from old new n s'
      | O =>
          if startswith old s
          then new ++ replace_from old new (length old - 1) s'
          else c :: replace_from old new 0 s'
      end
  end.

Definition replace (old new s : str) : str :=
  match old with
  | [] => new ++ flat_map (fun c => c :: new) s
  | _ :: _ => replace_from old new 0 s
  end.

(** ** The script *)

Section Script.

Variable rt : runtime.

(** The pattern of [migrate_color]:
    [r'.*"rgb_\(([\d]+),([\d]+),([\d]+)\)"']. *)
Definition color_pattern : regex :=
  cat [ Star Dot;
        text (quote :: py "rgb_(");
        Group 1 (Plus Digit); text (py ",");
        Group 2 (Plus Digit); text (py ",");
        Group 3 (Plus Digit);
        text (py ")" ++ [quote]) ].

(** [as_hex], the function local to [migrate_color]. *)
Definition as_hex (number_str : str) : result str :=
  number <- int rt number_str ;;
  Ok (format_02x number).

(** [map as_hex l], consumed from left to right by [join]: the first call
    that raises ends the whole expression. *)
Fixpoint map_as_hex (l : list str) : result (list str) :=
  match l with
  | [] => Ok []
  | x :: l' =>
      h <- as_hex x ;;
      t <- map_as_hex l' ;;
      Ok (h :: t)
  end.

(** [migrate_color line].  A group that took no part in the match would be
    [None] in Python, and [int(None)] raises [TypeError]. *)
Definition migrate_color (line : str) : result str :=
  match re_match rt color_pattern line with
  | None => Ok line
  | Some matches =>
      match group 1 matches, group 2 matches, group 3 matches with
      | Some g1, Some g2, Some g3 =>
          hex_parts <- map_as_hex [g1; g2; g3] ;;
          let hex_color := join hex_parts in
          let original_color :=
            py "rgb_(" ++ g1 ++ py "," ++ g2 ++ py "," ++ g3 ++ py ")" in
          Ok (replace original_color hex_color line)
      | _, _, _ => Raise TypeError
      end
  end.

(** [migrate line]: the migrators are applied in the order of the list,
    each to the result of the one before. *)
Definition migrators : list (str -> result str) := [migrate_color].

Fixpoint apply_migrators (ms : list (str -> result str)) (line : str)
  : result str :=
  match ms with
  | [] => Ok line
  | migrator :: ms' =>
      line' <- migrator line ;;
      apply_migrators ms' line'
  end.

Definition migrate (line : str) : result str :=
  apply_migrators migrators line.

(** The top-level loop over the lines of standard input.  The result is
    the list of the strings written to standard output, in order, and the
    exception that ended the process, if a call of [migrate] raised. *)
Fixpoint main (stdin : list str) : list str * option exn :=
  match stdin with
  | [] => ([], None)
  | line :: rest =>
      match migrate line with
      | Raise e => ([], Some e)
      | Ok new_line =>
          let (written, status) := main rest in
          (new_line :: written, status)
      end
  end.

End Script.

(** ** Vocabulary of the properties

    The definitions below are not part of the script: they describe, in
    direct terms, what the pattern matches and what the properties speak
    of. *)

(** The text [rgb_(g1,g2,g3)]; [migrate_color] calls it [original_color]. *)
Definition color_literal (g1 g2 g3 : str) : str :=
  py "rgb_(" ++ g1 ++ py "," ++ g2 ++ py "," ++ g3 ++ py ")".

(** The characters of the pattern and of [color_literal] other than the
    channels, together with the double quote and the newline. *)
Definition punctuation : str := newline :: quote :: py "rgb_(,)".

(** [contains old s] is [old in s]: [old] occurs in [s] as a substring. *)
Fixpoint contains (old s : str) : bool :=
  startswith old s ||
  match s with
  | [] => false
  | _ :: s' => contains old s'
  end.

(** [count c s] is [s.count(c)] for a character [c]. *)
Fixpoint count (c : char) (s : str) : nat :=
  match s with
  | [] => 0
  | x :: s' => (if N.eqb x c then 1 else 0) + count c s'
  end.

(** [replace_first old new s] is [s.replace(old, new, 1)]: only the first
    occurrence of [old] is replaced.  The script does not call it; it is
    what a replacement of the first occurrence only would compute. *)
Fixpoint replace_first (old new s : str) : str :=
  if startswith old s then new ++ skipn (length old) s
  else match s with
       | [] => []
       | c :: s' => c :: replace_first old new s'
       end.

(** [sep_join sep l] is [sep.join(l)]. *)
Fixpoint sep_join (sep : str) (l : list str) : str :=
  match l with
  | [] => []
  | [a] => a
  | a :: l' => a ++ sep ++ sep_join sep l'
  end.

(** [returns r]: the call returned, it did not raise. *)
Definition returns (A : Type) (r : result A) : bool :=
  match r with
  | Ok _ => true
  | Raise _ => false
  end.

(** The groups of a match of the pattern whose channels are [m]: the
    matcher records group 1 first. *)
Definition groups_of (m : str * str * str) : groups :=
  let '(g1, g2, g3) := m in [(3, g3); (2, g2); (1, g1)].

(** The value of a string of lowercase hexadecimal digits. *)
Definition hex_digit_value (c : char) : option N :=
  if ((48 <=? c) && (c <=? 57))%N then Some (c - 48)%N
  else if ((97 <=? c) && (c <=? 102))%N then Some (c - 87)%N
  else None.

Fixpoint hex_value (acc : N) (s : str) : option N :=
  match s with
  | [] => Some acc
  | c :: s' =>
      match hex_digit_value c with
      | Some d => hex_value (16 * acc + d)%N s'
      | None => None
      end
  end.

Definition is_lower_hex (c : char) : bool :=
  match hex_digit_value c with Some _ => true | None => false end.

(** A channel of 4301 digits, one more than the default limit of [int],
    and a line whose colour has it as its first channel. *)
Definition long_channel : str := repeat 49%N 4301.

Definition long_channel_line : str :=
  quoted (color_literal long_channel (py "0") (py "0")) ++ [newline].

Section Vocabulary.

Variable rt : runtime.

(** A channel: a non-empty string of decimal digits. *)
Definition digit_string (d : str) : Prop :=
  d <> [] /\ forallb (isdecimal rt) d = true.

(** No quoted colour occurs in [line], wherever it may start. *)
Definition no_quoted_color (line : str) : Prop :=
  forall pre g1 g2 g3 post,
    digit_string g1 -> digit_string g2 -> digit_string g3 ->
    line <> pre ++ quoted (color_literal g1 g2 g3) ++ post.

(** [int] accepts a digit string unless it is longer than the check
    threshold and than a limit that is not 0. *)
Definition int_accepts (d : str) : bool :=
  negb (Nat.ltb str_digits_check_threshold (length d)
        && Nat.ltb 0 (max_str_digits rt)
        && Nat.ltb (max_str_digits rt) (length d)).

Definition all_accepted (g1 g2 g3 : str) : bool :=
  int_accepts g1 && int_accepts g2 && int_accepts g3.

(** The number a channel stands for, and the colour [migrate_color] writes
    for three channels: two hexadecimal digits or more for each. *)
Definition channel_value (d : str) : N :=
  match decimal_value rt 0%N d with
  | Some number => number
  | None => 0%N
  end.

Definition hex_color (g1 g2 g3 : str) : str :=
  format_02x (channel_value g1) ++ format_02x (channel_value g2) ++
  format_02x (channel_value g3).

(** [span_decimal s] splits [s] after its longest prefix of decimal
    digits. *)
Fixpoint span_decimal (s : str) : str * str :=
  match s with
  | [] => ([], [])
  | c :: s' =>
      if isdecimal rt c
      then let (d, r) := span_decimal s' in (c :: d, r)
      else ([], s)
  end.

Definition strip_prefix (t s : str) : option str :=
  if startswith t s then Some (skipn (length t) s) else None.

Definition channel (s : str) : option (str * str) :=
  match span_decimal s with
  | ([], _) => None
  | (d, r) => Some (d, r)
  end.

(** [color_at_start s]: [s] starts with a quoted colour, a double quote,
    [rgb_(g1,g2,g3)] and a double quote; the result is the three channels
    and the text after the closing quote. *)
Definition color_at_start (s : str) : option (str * str * str * str) :=
  match strip_prefix (quote :: py "rgb_(") s with
  | None => None
  | Some s1 =>
  match channel s1 with
  | None => None
  | Some (g1, s2) =>
  match strip_prefix (py ",") s2 with
  | None => None
  | Some s3 =>
  match channel s3 with
  | None => None
  | Some (g2, s4) =>
  match strip_prefix (py ",") s4 with
  | None => None
  | Some s5 =>
  match channel s5 with
  | None => None
  | Some (g3, s6) =>
  match strip_prefix (py ")" ++ [quote]) s6 with
  | None => None
  | Some rest => Some (g1, g2, g3, rest)
  end end end end end end end.

Definition channels (s : str) : option (str * str * str) :=
  option_map fst (color_at_start s).

(** [last_color line]: the channels of the quoted colour that starts
    furthest to the right, among those that start before the first newline
    of [line]. *)
Fixpoint last_color (line : str) : option (str * str * str) :=
  match line with
  | [] => None
  | c :: line' =>
      if N.eqb c newline then None
      else match last_color line' with
           | Some m => Some m
           | None => channels line
           end
  end.

(** [first_color line]: the channels of the quoted colour that starts
    furthest to the left in [line]. *)
Fixpoint first_color (line : str) : option (str * str * str) :=
  match line with
  | [] => None
  | _ :: line' =>
      match channels line with
      | Some m => Some m
      | None => first_color line'
      end
  end.

End Vocabulary.

(** * Properties *)

(** ** Strings *)

Lemma startswith_app (t r : str) : startswith t (t ++ r) = true.
Proof.
  induction t as [|x t IH]; simpl; [reflexivity|].
  now rewrite N.eqb_refl, IH.
Qed.

Lemma startswith_inv (t s : str) :
  startswith t s = true -> s = t ++ skipn (length t) s.
Proof.
  revert s; induction t as [|x t IH]; intros [|y s]; simpl; try easy.
  intros H; apply andb_prop in H as [Hxy Ht].
  apply N.eqb_eq in Hxy; subst y. f_equal. now apply IH.
Qed.

Lemma startswith_iff (t s : str) :
  startswith t s = true <-> exists r, s = t ++ r.
Proof.
  split.
  - intros H; eexists; now apply startswith_inv.
  - intros [r ->]; apply startswith_app.
Qed.

Lemma strip_prefix_iff (t s r : str) :
  strip_prefix t s = Some r <-> s = t ++ r.
Proof.
  unfold strip_prefix; split.
  - destruct (startswith t s) eqn:E; [|discriminate].
    intros [= <-]. now apply startswith_inv.
  - intros ->. rewrite startswith_app.
    now rewrite skipn_app, skipn_all, Nat.sub_diag.
Qed.

Lemma strip_prefix_app (t r : str) : strip_prefix t (t ++ r) = Some r.
Proof. now apply strip_prefix_iff. Qed.

Lemma count_app (c : char) (a b : str) :
  count c (a ++ b) = count c a + count c b.
Proof. induction a as [|x a IH]; simpl; [reflexivity|]. rewrite IH; lia. Qed.

Lemma count_zero_iff (c : char) (s : str) : count c s = 0 <-> ~ In c s.
Proof.
  induction s as [|x s IH]; simpl; [tauto|].
  destruct (N.eqb_spec x c) as [->|Hne]; simpl.
  - split; [discriminate | intros H; exfalso; apply H; now left].
  - rewrite IH. split; [intros H [E|I]; [now apply Hne | now apply H] | tauto].
Qed.

(** ** Decimal digits *)

Section Facts.

Variable rt : runtime.

(** The characters the pattern spells out are not decimal digits, and
    neither is the newline. *)
Lemma isdecimal_ascii (c : char) :
  (c < 128)%N -> isdecimal rt c = ((48 <=? c) && (c <=? 57))%N.
Proof.
  intros H. unfold isdecimal, to_decimal.
  apply N.ltb_lt in H; rewrite H.
  now destruct ((48 <=? c) && (c <=? 57))%N.
Qed.

Lemma isdecimal_not_in (t : str) (c : char) :
  forallb (fun x => (x <? 48)%N || ((57 <? x) && (x <? 128))%N) t = true ->
  isdecimal rt c = true -> ~ In c t.
Proof.
  intros Ht Hc Hin.
  rewrite forallb_forall in Ht. specialize (Ht c Hin).
  assert (c < 128)%N as Hlt.
  { apply orb_prop in Ht as [H|H].
    - apply N.ltb_lt in H; lia.
    - apply andb_prop in H as [_ H]; now apply N.ltb_lt in H. }
  rewrite (isdecimal_ascii Hlt) in Hc.
  apply andb_prop in Hc as [H1 H2].
  apply N.leb_le in H1; apply N.leb_le in H2.
  apply orb_prop in Ht as [H|H].
  - apply N.ltb_lt in H; lia.
  - apply andb_prop in H as [H _]; apply N.ltb_lt in H; lia.
Qed.

Lemma isdecimal_punctuation (c : char) :
  isdecimal rt c = true -> ~ In c punctuation.
Proof. apply isdecimal_not_in. reflexivity. Qed.

Lemma span_decimal_app (s d r : str) :
  span_decimal rt s = (d, r) ->
  s = d ++ r /\ forallb (isdecimal rt) d = true /\
  match r with [] => True | c :: _ => isdecimal rt c = false end.
Proof.
  revert d r; induction s as [|c s IH]; simpl; intros d r.
  - intros [= <- <-]; auto.
  - destruct (isdecimal rt c) eqn:E.
    + destruct (span_decimal rt s) as [d' r'].
      intros [= <- <-]. destruct (IH d' r' eq_refl) as (-> & Hd & Hr).
      simpl; rewrite E; auto.
    + intros [= <- <-]; simpl; auto.
Qed.

Lemma span_decimal_intro (d r : str) :
  forallb (isdecimal rt) d = true ->
  match r with [] => True | c :: _ => isdecimal rt c = false end ->
  span_decimal rt (d ++ r) = (d, r).
Proof.
  intros Hd Hr; induction d as [|c d IH]; simpl in *.
  - destruct r as [|c r]; simpl; [reflexivity | now rewrite Hr].
  - apply andb_prop in Hd as [Hc Hd]. now rewrite Hc, (IH Hd).
Qed.

Lemma channel_iff (s d r : str) :
  channel rt s = Some (d, r) <->
  s = d ++ r /\ digit_string rt d /\
  match r with [] => True | c :: _ => isdecimal rt c = false end.
Proof.
  unfold channel, digit_string; split.
  - destruct (span_decimal rt s) as [d' r'] eqn:E.
    apply span_decimal_app in E as (-> & Hd & Hr).
    destruct d' as [|c d']; [discriminate|].
    intros [= <- <-]; repeat split; auto; discriminate.
  - intros (-> & (Hne & Hd) & Hr).
    rewrite (span_decimal_intro _ _ Hd Hr).
    destruct d; [contradiction | reflexivity].
Qed.

End Facts.

(** ** What the pattern matches *)

Section Pattern.

Variable rt : runtime.

Lemma quoted_color_app (g1 g2 g3 rest : str) :
  quoted (color_literal g1 g2 g3) ++ rest =
  (quote :: py "rgb_(") ++ g1 ++ py "," ++ g2 ++ py "," ++ g3 ++
  (py ")" ++ [quote]) ++ rest.
Proof.
  unfold quoted, color_literal. simpl.
  repeat (rewrite <- app_assoc; simpl). reflexivity.
Qed.

Lemma comma_not_decimal : isdecimal rt 44%N = false.
Proof. now rewrite isdecimal_ascii. Qed.

Lemma paren_not_decimal : isdecimal rt 41%N = false.
Proof. now rewrite isdecimal_ascii. Qed.

(** [color_at_start] recognises exactly the strings that start with a
    quoted colour, and returns its channels. *)
Lemma color_at_start_iff (s g1 g2 g3 rest : str) :
  color_at_start rt s = Some (g1, g2, g3, rest) <->
  digit_string rt g1 /\ digit_string rt g2 /\ digit_string rt g3 /\
  s = quoted (color_literal g1 g2 g3) ++ rest.
Proof.
  rewrite quoted_color_app. unfold color_at_start. split.
  - destruct (strip_prefix _ s) as [s1|] eqn:E1; [|discriminate].
    destruct (channel rt s1) as [[d1 s2]|] eqn:C1; [|discriminate].
    destruct (strip_prefix _ s2) as [s3|] eqn:E2; [|discriminate].
    destruct (channel rt s3) as [[d2 s4]|] eqn:C2; [|discriminate].
    destruct (strip_prefix _ s4) as [s5|] eqn:E3; [|discriminate].
    destruct (channel rt s5) as [[d3 s6]|] eqn:C3; [|discriminate].
    destruct (strip_prefix _ s6) as [r|] eqn:E4; [|discriminate].
    intros [= <- <- <- <-].
    apply strip_prefix_iff in E1, E2, E3, E4.
    apply channel_iff in C1 as (-> & D1 & _).
    apply channel_iff in C2 as (-> & D2 & _).
    apply channel_iff in C3 as (-> & D3 & _).
    subst. repeat split; try apply D1; try apply D2; try apply D3.
  - intros (D1 & D2 & D3 & ->).
    assert (forall d r, digit_string rt d ->
              channel rt (d ++ py "," ++ r) = Some (d, py "," ++ r)) as Hc1.
    { intros d r D. apply channel_iff. split; [reflexivity|].
      split; [exact D | apply comma_not_decimal]. }
    assert (forall d r, digit_string rt d ->
              channel rt (d ++ (py ")" ++ [quote]) ++ r) =
              Some (d, (py ")" ++ [quote]) ++ r)) as Hc2.
    { intros d r D. apply channel_iff. split; [reflexivity|].
      split; [exact D | apply paren_not_decimal]. }
    rewrite strip_prefix_app; cbv beta iota.
    rewrite (Hc1 _ _ D1); cbv beta iota.
    rewrite strip_prefix_app; cbv beta iota.
    rewrite (Hc1 _ _ D2); cbv beta iota.
    rewrite strip_prefix_app; cbv beta iota.
    rewrite (Hc2 _ _ D3); cbv beta iota.
    now rewrite strip_prefix_app.
Qed.

Lemma color_at_start_quote (s : str) (m : str * str * str * str) :
  color_at_start rt s = Some m -> exists s', s = quote :: s'.
Proof.
  destruct m as [[[g1 g2] g3] rest]. intros H.
  apply color_at_start_iff in H as (_ & _ & _ & ->).
  unfold quoted; simpl; eauto.
Qed.

(** *** The matcher on the pieces of the pattern *)

Lemma exec_text (t s : str) (g : groups) k :
  exec rt (text t) s g k =
  match strip_prefix t s with
  | Some s' => k s' g
  | None => None
  end.
Proof.
  unfold strip_prefix. revert s; induction t as [|x t IH]; intros s; simpl.
  - reflexivity.
  - destruct s as [|y s]; [reflexivity|]. simpl.
    rewrite (N.eqb_sym x y).
    destruct (N.eqb y x); simpl; [apply IH | reflexivity].
Qed.

(** A greedy run of digits gives nothing back when what follows in the
    pattern cannot start with a digit: only the longest run is tried with
    success. *)
Lemma repeat_greedy_digit (A : Type) (s : str) (k : str -> option A) :
  (forall c t, isdecimal rt c = true -> k (c :: t) = None) ->
  repeat_greedy rt Digit s k = k (snd (span_decimal rt s)).
Proof.
  intros Hk; induction s as [|c s IH]; simpl; [reflexivity|].
  destruct (isdecimal rt c) eqn:E; simpl; [|reflexivity].
  rewrite IH. destruct (span_decimal rt s) as [d r]; simpl.
  destruct (k r); [reflexivity | now apply Hk].
Qed.

Lemma firstn_span (d r : str) :
  firstn (length (d ++ r) - length r) (d ++ r) = d.
Proof.
  rewrite length_app, Nat.add_sub.
  now rewrite firstn_app, Nat.sub_diag, firstn_all, app_nil_r.
Qed.

Lemma exec_group_digits (n : nat) (s : str) (g : groups) k :
  (forall c t g', isdecimal rt c = true -> k (c :: t) g' = None) ->
  exec rt (Group n (Plus Digit)) s g k =
  match channel rt s with
  | Some (d, r) => k r ((n, d) :: g)
  | None => None
  end.
Proof.
  intros Hk. unfold channel. simpl.
  destruct s as [|c s]; [reflexivity|]. simpl.
  destruct (isdecimal rt c) eqn:E; [|reflexivity].
  rewrite repeat_greedy_digit by (intros; now apply Hk).
  destruct (span_decimal rt s) as [d r] eqn:Es; simpl.
  apply span_decimal_app in Es as (-> & _ & _).
  do 3 f_equal. exact (firstn_span (c :: d) r).
Qed.

Lemma exec_cat_text (t : str) (r : regex) (s : str) (g : groups) k :
  exec rt (Cat (text t) r) s g k =
  match strip_prefix t s with
  | Some s' => exec rt r s' g k
  | None => None
  end.
Proof. simpl. apply exec_text. Qed.

Lemma exec_cat_group (n : nat) (r : regex) (s : str) (g : groups) k :
  (forall c t g', isdecimal rt c = true -> exec rt r (c :: t) g' k = None) ->
  exec rt (Cat (Group n (Plus Digit)) r) s g k =
  match channel rt s with
  | Some (d, rest) => exec rt r rest ((n, d) :: g) k
  | None => None
  end.
Proof.
  intros H.
  change (exec rt (Cat (Group n (Plus Digit)) r) s g k)
    with (exec rt (Group n (Plus Digit)) s g
               (fun s' g' => exec rt r s' g' k)).
  now apply exec_group_digits.
Qed.

Lemma strip_prefix_decimal (x c : char) (t' t : str) :
  isdecimal rt x = false -> isdecimal rt c = true ->
  strip_prefix (x :: t') (c :: t) = None.
Proof.
  intros Hx Hc. unfold strip_prefix; simpl.
  destruct (N.eqb_spec x c) as [->|_]; [congruence | reflexivity].
Qed.

(** The pattern after its leading [.*], at the start of [s]. *)
Lemma exec_color_tail (s : str) (g : groups) k :
  exec rt (cat [ text (quote :: py "rgb_(");
                 Group 1 (Plus Digit); text (py ",");
                 Group 2 (Plus Digit); text (py ",");
                 Group 3 (Plus Digit);
                 text (py ")" ++ [quote]) ]) s g k =
  match color_at_start rt s with
  | Some (g1, g2, g3, rest) => k rest ((3, g3) :: (2, g2) :: (1, g1) :: g)
  | None => None
  end.
Proof.
  cbn [cat]. unfold color_at_start.
  rewrite exec_cat_text.
  destruct (strip_prefix _ s) as [s1|]; [|reflexivity].
  rewrite exec_cat_group.
  2:{ intros c t g' Hc. rewrite exec_cat_text.
      replace (strip_prefix (py ",") (c :: t)) with (@None str);
        [reflexivity|].
      symmetry; apply strip_prefix_decimal;
        [apply comma_not_decimal | exact Hc]. }
  destruct (channel rt s1) as [[g1 s2]|]; [|reflexivity].
  rewrite exec_cat_text.
  destruct (strip_prefix _ s2) as [s3|]; [|reflexivity].
  rewrite exec_cat_group.
  2:{ intros c t g' Hc. rewrite exec_cat_text.
      replace (strip_prefix (py ",") (c :: t)) with (@None str);
        [reflexivity|].
      symmetry; apply strip_prefix_decimal;
        [apply comma_not_decimal | exact Hc]. }
  destruct (channel rt s3) as [[g2 s4]|]; [|reflexivity].
  rewrite exec_cat_text.
  destruct (strip_prefix _ s4) as [s5|]; [|reflexivity].
  rewrite exec_cat_group.
  2:{ intros c t g' Hc. rewrite exec_cat_text.
      replace (strip_prefix (py ")" ++ [quote]) (c :: t)) with (@None str);
        [reflexivity|].
      symmetry; apply strip_prefix_decimal;
        [apply paren_not_decimal | exact Hc]. }
  destruct (channel rt s5) as [[g3 s6]|]; [|reflexivity].
  rewrite exec_cat_text.
  destruct (strip_prefix _ s6) as [rest|]; reflexivity.
Qed.

(** [re.match] with the pattern of the script selects what [last_color]
    describes: the quoted colour that starts furthest to the right before
    the first newline. *)
Lemma repeat_greedy_dot_last_color (line : str) :
  repeat_greedy rt Dot line (channels rt) = last_color rt line.
Proof.
  induction line as [|c line IH]; simpl.
  - reflexivity.
  - rewrite IH. destruct (N.eqb_spec c newline) as [->|Hne]; simpl.
    + reflexivity.
    + reflexivity.
Qed.

Theorem re_match_color_pattern (line : str) :
  re_match rt color_pattern line = option_map groups_of (last_color rt line).
Proof.
  unfold re_match, color_pattern.
  change (cat (Star Dot :: ?l)) with (Cat (Star Dot) (cat l)).
  cbn [exec]. rewrite <- repeat_greedy_dot_last_color.
  induction line as [|c line IH].
  - reflexivity.
  - cbn [repeat_greedy]. rewrite IH.
    destruct (atom_matches rt Dot c);
      [destruct (repeat_greedy rt Dot line (channels rt)) as [m|];
        [reflexivity|] |];
      rewrite exec_color_tail; unfold channels;
      destruct (color_at_start rt (c :: line)) as [[[[g1 g2] g3] rest]|];
      reflexivity.
Qed.


(** [migrate_color] in terms of [last_color]. *)
Lemma migrate_color_last_color (line : str) :
  migrate_color rt line =
  match last_color rt line with
  | None => Ok line
  | Some (g1, g2, g3) =>
      hex_parts <- map_as_hex rt [g1; g2; g3] ;;
      Ok (replace (color_literal g1 g2 g3) (join hex_parts) line)
  end.
Proof.
  unfold migrate_color. rewrite re_match_color_pattern.
  destruct (last_color rt line) as [[[g1 g2] g3]|]; reflexivity.
Qed.

(** *** The selected colour, in terms of the text of the line *)

Lemma color_literal_chars (g1 g2 g3 : str) (c : char) :
  digit_string rt g1 -> digit_string rt g2 -> digit_string rt g3 ->
  In c (color_literal g1 g2 g3) ->
  In c (py "rgb_(,)") \/ isdecimal rt c = true.
Proof.
  intros [_ D1] [_ D2] [_ D3]. rewrite forallb_forall in D1, D2, D3.
  unfold color_literal. rewrite !in_app_iff.
  intros [H|[H|[H|[H|[H|[H|H]]]]]]; auto;
    left; simpl in *; intuition.
Qed.

Lemma color_literal_plain (g1 g2 g3 : str) (c : char) :
  digit_string rt g1 -> digit_string rt g2 -> digit_string rt g3 ->
  In c (color_literal g1 g2 g3) -> c <> newline /\ c <> quote.
Proof.
  intros D1 D2 D3 H.
  destruct (color_literal_chars D1 D2 D3 H) as [Hp|Hd].
  - split; intros ->; simpl in Hp; intuition discriminate.
  - pose proof (@isdecimal_punctuation rt c Hd) as Hn.
    split; intros ->; apply Hn; simpl; auto.
Qed.

Lemma channels_quote (s : str) (m : str * str * str) :
  channels rt s = Some m -> exists s', s = quote :: s'.
Proof.
  unfold channels. destruct (color_at_start rt s) as [x|] eqn:E;
    [|discriminate].
  intros _. eapply color_at_start_quote; eauto.
Qed.

Lemma channels_not_quote (c : char) (s : str) :
  c <> quote -> channels rt (c :: s) = None.
Proof.
  intros Hc. destruct (channels rt (c :: s)) as [m|] eqn:E; [|reflexivity].
  apply channels_quote in E as [s' [= -> _]]. contradiction.
Qed.

Lemma channels_iff (s g1 g2 g3 : str) :
  channels rt s = Some (g1, g2, g3) <->
  digit_string rt g1 /\ digit_string rt g2 /\ digit_string rt g3 /\
  exists rest, s = quoted (color_literal g1 g2 g3) ++ rest.
Proof.
  unfold channels; split.
  - destruct (color_at_start rt s) as [[m rest]|] eqn:E; [|discriminate].
    simpl. intros [= ->]. apply color_at_start_iff in E.
    destruct E as (D1 & D2 & D3 & ->).
    repeat (split; [assumption|]). now exists rest.
  - intros (D1 & D2 & D3 & rest & ->).
    assert (color_at_start rt (quoted (color_literal g1 g2 g3) ++ rest)
            = Some (g1, g2, g3, rest)) as E
        by (apply color_at_start_iff; auto).
    now rewrite E.
Qed.

(** Characters that are neither a newline nor a double quote are passed
    over by [last_color]. *)
Lemma last_color_skip (t rest : str) :
  (forall c, In c t -> c <> newline /\ c <> quote) ->
  last_color rt (t ++ rest) = last_color rt rest.
Proof.
  induction t as [|c t IH]; intros H; [reflexivity|].
  destruct (H c (or_introl eq_refl)) as [Hn Hq].
  change ((c :: t) ++ rest) with (c :: t ++ rest). cbn [last_color].
  rewrite IH by (intros; apply H; now right).
  apply N.eqb_neq in Hn; rewrite Hn.
  destruct (last_color rt rest); [reflexivity|].
  now apply channels_not_quote.
Qed.

Lemma last_color_app (pre s : str) (m : str * str * str) :
  ~ In newline pre ->
  last_color rt s = Some m ->
  last_color rt (pre ++ s) = Some m.
Proof.
  intros Hpre Hs; induction pre as [|c pre IH]; [exact Hs|].
  change ((c :: pre) ++ s) with (c :: pre ++ s). cbn [last_color].
  rewrite IH by (intros H; apply Hpre; now right).
  destruct (N.eqb_spec c newline) as [->|_]; [|reflexivity].
  exfalso; apply Hpre; now left.
Qed.

(** A quoted colour is selected when no newline comes before it and no
    quoted colour starts after its opening quote, before the first newline:
    after the channels, that is from the closing quote on. *)
Lemma last_color_intro (pre post g1 g2 g3 : str) :
  digit_string rt g1 -> digit_string rt g2 -> digit_string rt g3 ->
  ~ In newline pre ->
  last_color rt (quote :: post) = None ->
  last_color rt (pre ++ quoted (color_literal g1 g2 g3) ++ post) =
  Some (g1, g2, g3).
Proof.
  intros D1 D2 D3 Hpre Hpost. apply last_color_app; [assumption|].
  assert (channels rt (quoted (color_literal g1 g2 g3) ++ post)
          = Some (g1, g2, g3)) as Hch.
  { apply channels_iff. repeat (split; [assumption|]). now exists post. }
  revert Hch. unfold quoted.
  change ((quote :: ?l ++ [quote]) ++ post)
    with (quote :: (l ++ [quote]) ++ post).
  rewrite <- app_assoc. change ([quote] ++ post) with (quote :: post).
  intros Hch. cbn [last_color]. change (N.eqb quote newline) with false.
  cbv iota.
  rewrite last_color_skip by (intros c; now apply color_literal_plain).
  now rewrite Hpost.
Qed.

(** Conversely, what [last_color] selects is such a quoted colour. *)
Lemma last_color_inv (line g1 g2 g3 : str) :
  last_color rt line = Some (g1, g2, g3) ->
  digit_string rt g1 /\ digit_string rt g2 /\ digit_string rt g3 /\
  exists pre post,
    line = pre ++ quoted (color_literal g1 g2 g3) ++ post /\
    ~ In newline pre /\
    last_color rt (quote :: post) = None.
Proof.
  induction line as [|c line IH]; [discriminate|].
  intros H; cbn [last_color] in H.
  destruct (N.eqb_spec c newline) as [->|Hc]; [discriminate|].
  destruct (last_color rt line) as [m|] eqn:El.
  - injection H as ->.
    destruct (IH eq_refl) as (D1 & D2 & D3 & pre & post & E).
    destruct E as (-> & Hpre & Hpost).
    repeat (split; [assumption|]).
    exists (c :: pre), post. split; [reflexivity|]. split; [|assumption].
    intros [Hin|Hin]; [now apply Hc | now apply Hpre].
  - apply channels_iff in H as (D1 & D2 & D3 & rest & E).
    repeat (split; [assumption|]).
    exists [], rest. split; [exact E|]. split; [intros []|].
    apply (f_equal (@tl char)) in E.
    change (line = (color_literal g1 g2 g3 ++ [quote]) ++ rest) in E.
    rewrite <- app_assoc in E.
    change ([quote] ++ rest) with (quote :: rest) in E.
    rewrite E, last_color_skip in El; [exact El|].
    intros x; now apply color_literal_plain.
Qed.

(** The quoted colour occurs somewhere in the line exactly when
    [first_color] finds one. *)
Lemma first_color_none_iff (line : str) :
  first_color rt line = None <-> no_quoted_color rt line.
Proof.
  unfold no_quoted_color. induction line as [|c line IH]; cbn [first_color].
  - split; [|reflexivity]. intros _ pre g1 g2 g3 post _ _ _ E.
    destruct pre; discriminate.
  - destruct (channels rt (c :: line)) as [[[g1 g2] g3]|] eqn:Ech.
    + split; [discriminate|]. intros H. exfalso.
      apply channels_iff in Ech as (D1 & D2 & D3 & rest & E).
      apply (H [] g1 g2 g3 rest D1 D2 D3). exact E.
    + rewrite IH. split.
      * intros H pre g1 g2 g3 post D1 D2 D3 E.
        destruct pre as [|x pre].
        -- simpl in E. assert (channels rt (c :: line) = Some (g1, g2, g3))
             as Hc.
           { apply channels_iff. repeat (split; [assumption|]).
             now exists post. }
           congruence.
        -- injection E as -> E. now apply (H pre g1 g2 g3 post).
      * intros H pre g1 g2 g3 post D1 D2 D3 ->.
        now apply (H (c :: pre) g1 g2 g3 post).
Qed.

Lemma first_color_none_last (line : str) :
  first_color rt line = None -> last_color rt line = None.
Proof.
  induction line as [|c line IH]; [reflexivity|]. cbn [first_color last_color].
  destruct (channels rt (c :: line)); [discriminate|].
  intros H; rewrite (IH H). now destruct (N.eqb c newline).
Qed.

End Pattern.

(** ** [str.replace] *)

Section Replace.

Variables old new : str.
Hypothesis old_not_empty : old <> [].

Lemma replace_from_skip (n : nat) (s : str) :
  replace_from old new n s = replace_from old new 0 (skipn n s).
Proof.
  revert n; induction s as [|c s IH]; intros [|n]; simpl; auto.
Qed.

Lemma replace_unfold (s : str) :
  replace old new s = replace_from old new 0 s.
Proof. unfold replace. destruct old; [contradiction | reflexivity]. Qed.

Lemma replace_nil : replace old new [] = [].
Proof. now rewrite replace_unfold. Qed.

Lemma replace_hit (b : str) :
  replace old new (old ++ b) = new ++ replace old new b.
Proof.
  rewrite !replace_unfold.
  assert (skipn (length old) (old ++ b) = b) as Hskip
    by now rewrite skipn_app, skipn_all, Nat.sub_diag.
  pose proof (startswith_app old b) as Hstart.
  assert (0 < length old) as Hlen
    by (destruct old; [contradiction | simpl; lia]).
  destruct (old ++ b) as [|c s]; [now destruct old|].
  cbn [replace_from]. rewrite Hstart. f_equal.
  rewrite replace_from_skip. f_equal.
  rewrite <- Hskip. destruct (length old); [lia|].
  simpl. now rewrite Nat.sub_0_r.
Qed.

Lemma replace_miss (c : char) (s : str) :
  startswith old (c :: s) = false ->
  replace old new (c :: s) = c :: replace old new s.
Proof.
  rewrite !replace_unfold. intros H. cbn [replace_from]. now rewrite H.
Qed.

(** Induction along the scan of [replace]. *)
Lemma replace_scan (P : str -> str -> Prop) :
  P [] [] ->
  (forall b, P b (replace old new b) ->
             P (old ++ b) (new ++ replace old new b)) ->
  (forall c s, startswith old (c :: s) = false ->
               P s (replace old new s) ->
               P (c :: s) (c :: replace old new s)) ->
  forall s, P s (replace old new s).
Proof.
  intros Hnil Hhit Hmiss s.
  remember (length s) as n eqn:En. revert s En.
  induction n as [n IH] using lt_wf_ind. intros s En.
  destruct s as [|c s]; [now rewrite replace_nil|].
  destruct (startswith old (c :: s)) eqn:E.
  - apply startswith_inv in E. rewrite E, replace_hit.
    apply Hhit. apply (IH (length (skipn (length old) (c :: s)))); [|easy].
    subst n. rewrite length_skipn.
    destruct old; [contradiction | simpl; lia].
  - rewrite replace_miss by exact E. apply Hmiss; [exact E|].
    apply (IH (length s)); [subst n; simpl; lia | reflexivity].
Qed.

Lemma contains_cons (c : char) (s : str) :
  contains old (c :: s) = startswith old (c :: s) || contains old s.
Proof. reflexivity. Qed.

(** A string without [old] is left as it is. *)
Lemma replace_absent (s : str) :
  contains old s = false -> replace old new s = s.
Proof.
  induction s as [|c s IH]; intros H; [apply replace_nil|].
  rewrite contains_cons in H. apply orb_false_elim in H as [H1 H2].
  rewrite replace_miss by exact H1. now rewrite IH.
Qed.

(** The first occurrence of [old] is replaced, and the scan goes on after
    it. *)
Lemma replace_first_hit (a b : str) :
  (forall a1 a2, a = a1 ++ a2 -> a2 <> [] ->
                 startswith old (a2 ++ old ++ b) = false) ->
  replace old new (a ++ old ++ b) = a ++ new ++ replace old new b.
Proof.
  induction a as [|c a IH]; intros H; [apply replace_hit|].
  change ((c :: a) ++ old ++ b) with (c :: a ++ old ++ b).
  rewrite replace_miss by (apply (H [] (c :: a)); [reflexivity | discriminate]).
  rewrite IH; [reflexivity|].
  intros a1 a2 -> Ha2. now apply (H (c :: a1) a2).
Qed.

Lemma count_replace (c : char) (s : str) :
  count c old = 0 -> count c new = 0 ->
  count c (replace old new s) = count c s.
Proof.
  intros Ho Hn. apply replace_scan with (P := fun s r => count c r = count c s).
  - reflexivity.
  - intros b IH. rewrite !count_app, IH. lia.
  - intros x t _ IH. simpl. now rewrite IH.
Qed.

End Replace.

(** *** Occurrences that cannot overlap *)

Lemma startswith_shorter (t a r : str) :
  length t <= length a -> startswith t (a ++ r) = true ->
  startswith t a = true.
Proof.
  revert a; induction t as [|x t IH]; intros [|y a]; simpl; try easy; try lia.
  intros Hl H. apply andb_prop in H as [H1 H2].
  rewrite H1; simpl. apply IH; [lia | exact H2].
Qed.

Lemma contains_app_r (t a1 a2 : str) :
  contains t a2 = true -> contains t (a1 ++ a2) = true.
Proof.
  intros H; induction a1 as [|c a1 IH]; [exact H|].
  change ((c :: a1) ++ a2) with (c :: a1 ++ a2).
  rewrite contains_cons, IH. apply orb_true_r.
Qed.

Lemma contains_startswith (t s : str) :
  startswith t s = true -> contains t s = true.
Proof. intros H. destruct s; simpl; now rewrite H. Qed.

Lemma app_eq_in (x : char) (l1 t l2 r : str) :
  l1 ++ x :: t = l2 ++ r -> length l1 < length l2 -> In x l2.
Proof.
  revert l2; induction l1 as [|y l1 IH]; intros [|z l2]; simpl; try lia.
  - intros [= -> _] _; now left.
  - intros [= -> E] Hl. right. apply IH; [exact E | lia].
Qed.

(** When the first character of [old] does not come back in [old], an
    occurrence of [old] cannot start inside [a] and run into the [old] that
    follows [a]. *)
Lemma no_overlap (x : char) (t a b : str) :
  ~ In x t -> contains (x :: t) a = false ->
  forall a1 a2, a = a1 ++ a2 -> a2 <> [] ->
                startswith (x :: t) (a2 ++ (x :: t) ++ b) = false.
Proof.
  intros Hx Ha a1 a2 -> Ha2.
  destruct (startswith (x :: t) (a2 ++ (x :: t) ++ b)) eqn:E; [|reflexivity].
  exfalso. destruct (le_lt_dec (length (x :: t)) (length a2)) as [Hl|Hl].
  - apply startswith_shorter in E; [|exact Hl].
    apply contains_startswith in E. apply (contains_app_r _ a1) in E.
    congruence.
  - apply startswith_iff in E as [r E].
    destruct a2 as [|y a2]; [contradiction|].
    injection E as -> E. apply Hx.
    eapply app_eq_in; [exact E | simpl in Hl; lia].
Qed.

Lemma startswith_length (t s : str) :
  startswith t s = true -> length t <= length s.
Proof.
  intros H. apply startswith_inv in H. rewrite H, length_app. lia.
Qed.

Lemma startswith_same_length (t s : str) :
  startswith t s = true -> length t = length s -> t = s.
Proof.
  intros H Hl. apply startswith_inv in H.
  assert (skipn (length t) s = []) as E
    by (apply skipn_all2; lia).
  rewrite E, app_nil_r in H. now symmetry.
Qed.

Lemma contains_nil (old : str) : old <> [] -> contains old [] = false.
Proof. destruct old; [contradiction | reflexivity]. Qed.

(** A character that is not in [old] can be added after a string without
    [old]. *)
Lemma contains_snoc (old a : str) (c : char) :
  old <> [] -> ~ In c old ->
  contains old a = false -> contains old (a ++ [c]) = false.
Proof.
  intros Hne Hc. induction a as [|x a IH]; intros H.
  - change ([] ++ [c]) with [c].
    rewrite contains_cons, (contains_nil Hne), orb_false_r.
    destruct (startswith old [c]) eqn:E; [|reflexivity].
    exfalso. apply Hc. pose proof (startswith_length _ _ E) as Hl.
    destruct old as [|y [|z old]]; simpl in *; try contradiction; try lia.
    rewrite andb_true_r in E. apply N.eqb_eq in E. now left.
  - change ((x :: a) ++ [c]) with (x :: a ++ [c]).
    rewrite contains_cons in *. apply orb_false_elim in H as [H1 H2].
    rewrite (IH H2), orb_false_r.
    destruct (startswith old (x :: a ++ [c])) eqn:E; [|reflexivity].
    exfalso. change (x :: a ++ [c]) with ((x :: a) ++ [c]) in E.
    destruct (le_lt_dec (length old) (length (x :: a))) as [Hl|Hl].
    + apply startswith_shorter in E; [congruence | exact Hl].
    + pose proof (startswith_length _ _ E) as Hl'.
      rewrite length_app in Hl'. simpl in Hl'.
      apply startswith_same_length in E;
        [|rewrite length_app; simpl in *; lia].
      apply Hc. rewrite E. apply in_or_app. right. now left.
Qed.

(** A text between double quotes is replaced where it stands when it does
    not occur before or after, holds no double quote, and does not start
    with a character it holds again. *)
Lemma replace_quoted (x : char) (t new pre post : str) :
  ~ In x t -> x <> quote -> ~ In quote t ->
  contains (x :: t) pre = false -> contains (x :: t) post = false ->
  replace (x :: t) new (pre ++ quoted (x :: t) ++ post) =
  pre ++ quoted new ++ post.
Proof.
  intros Hx Hq Hqt Hpre Hpost.
  assert (x :: t <> []) as Hne by discriminate.
  assert (forall l, pre ++ quoted l ++ post =
                    (pre ++ [quote]) ++ l ++ quote :: post) as Hshape.
  { intros l. unfold quoted. rewrite <- !app_assoc. simpl.
    now rewrite <- app_assoc. }
  rewrite !Hshape. rewrite replace_first_hit.
  - rewrite replace_absent; [reflexivity | exact Hne |].
    rewrite contains_cons, Hpost, orb_false_r. simpl.
    apply N.eqb_neq in Hq. now rewrite Hq.
  - exact Hne.
  - apply no_overlap; [exact Hx|].
    apply contains_snoc; [exact Hne | | exact Hpre].
    intros [H|H]; [now apply Hq | now apply Hqt].
Qed.

Lemma sep_join_cons (sep a b : str) (l : list str) :
  sep_join sep (a :: b :: l) = a ++ sep ++ sep_join sep (b :: l).
Proof. reflexivity. Qed.

(** Every occurrence of [old] between the pieces of a line is replaced. *)
Lemma replace_sep_join (x : char) (t new : str) (segs : list str) :
  ~ In x t ->
  Forall (fun seg => contains (x :: t) seg = false) segs ->
  replace (x :: t) new (sep_join (x :: t) segs) = sep_join new segs.
Proof.
  intros Hx H. assert (x :: t <> []) as Hne by discriminate.
  induction H as [|a segs Ha Hsegs IH]; [reflexivity|].
  destruct segs as [|b segs].
  - cbn [sep_join]. now apply replace_absent.
  - rewrite !sep_join_cons, replace_first_hit, IH; [reflexivity | exact Hne |].
    now apply no_overlap.
Qed.

Lemma startswith_app_r (t a r : str) :
  startswith t a = true -> startswith t (a ++ r) = true.
Proof.
  intros H. apply startswith_iff in H as [r' ->].
  rewrite <- app_assoc. apply startswith_app.
Qed.

Lemma first_occurrence (old s : str) :
  old <> [] -> contains old s = true ->
  exists a b, s = a ++ old ++ b /\ contains old a = false.
Proof.
  intros Hne. induction s as [|c s IH]; intros H.
  - now rewrite contains_nil in H.
  - rewrite contains_cons in H.
    destruct (startswith old (c :: s)) eqn:E.
    + apply startswith_iff in E as [b E].
      exists [], b. split; [exact E | now apply contains_nil].
    + destruct (IH H) as (a & b & -> & Ha).
      exists (c :: a), b. split; [reflexivity|].
      rewrite contains_cons, Ha, orb_false_r.
      destruct (startswith old (c :: a)) eqn:E'; [|reflexivity].
      apply (startswith_app_r _ _ (old ++ b)) in E'. simpl in E', E.
      congruence.
Qed.

(** Every line is made of pieces without [old], joined by [old]. *)
Lemma sep_join_exists (old s : str) :
  old <> [] ->
  exists segs,
    segs <> [] /\ s = sep_join old segs /\
    Forall (fun seg => contains old seg = false) segs.
Proof.
  intros Hne. remember (length s) as n eqn:En. revert s En.
  induction n as [n IH] using lt_wf_ind. intros s En.
  destruct (contains old s) eqn:E.
  - destruct (first_occurrence _ Hne E) as (a & b & -> & Ha).
    destruct (IH (length b)) with (s := b) as (segs & Hs & -> & Hf);
      [|reflexivity|].
    + subst n. rewrite !length_app. destruct old; [contradiction|].
      simpl; lia.
    + exists (a :: segs). split; [discriminate|].
      split; [|now constructor].
      destruct segs; [contradiction | reflexivity].
  - exists [s]. split; [discriminate|]. split; [reflexivity|].
    now constructor.
Qed.

(** ** The hexadecimal format *)

Lemma format_x_eq (number : N) :
  format_x number =
  if (number <? 16)%N then [hex_digit number]
  else format_x (number / 16) ++ [hex_digit (number mod 16)].
Proof.
  rewrite format_x_equation_1 at 1. simpl.
  destruct (N.eq_dec (number / 16) 0) as [E|E];
    destruct (N.ltb_spec number 16) as [L|L]; try reflexivity.
  - destruct (N.div_small_iff number 16) as [F _]; [discriminate|].
    specialize (F E). lia.
  - apply N.div_small in L. contradiction.
Qed.

Lemma format_x_length_pos (number : N) : 1 <= length (format_x number).
Proof.
  rewrite format_x_eq. destruct (number <? 16)%N; simpl; [lia|].
  rewrite length_app; simpl; lia.
Qed.

Lemma format_x_length_1 (number : N) :
  (number < 16)%N -> length (format_x number) = 1.
Proof.
  intros H. rewrite format_x_eq.
  apply N.ltb_lt in H. now rewrite H.
Qed.

Lemma format_x_length_2 (number : N) :
  (16 <= number < 256)%N -> length (format_x number) = 2.
Proof.
  intros [H1 H2]. rewrite format_x_eq.
  destruct (N.ltb_spec number 16) as [L|_]; [lia|].
  rewrite length_app, format_x_length_1; [reflexivity|].
  apply N.Div0.div_lt_upper_bound; lia.
Qed.

Lemma format_x_length_3 (number : N) :
  (256 <= number)%N -> 3 <= length (format_x number).
Proof.
  intros H. rewrite format_x_eq.
  destruct (N.ltb_spec number 16) as [L|_]; [lia|].
  rewrite length_app. simpl.
  assert (16 <= number / 16)%N as H16
    by (apply N.div_le_lower_bound; lia).
  rewrite format_x_eq.
  destruct (N.ltb_spec (number / 16) 16) as [L|_]; [lia|].
  rewrite length_app. simpl.
  pose proof (format_x_length_pos (number / 16 / 16)). lia.
Qed.

Lemma hex_digit_value_hex_digit (d : N) :
  (d < 16)%N -> hex_digit_value (hex_digit d) = Some d.
Proof.
  intros H. unfold hex_digit, hex_digit_value.
  destruct (N.ltb_spec d 10) as [L|L].
  - replace ((48 <=? 48 + d) && (48 + d <=? 57))%N with true.
    + f_equal; lia.
    + symmetry. apply andb_true_intro; split; apply N.leb_le; lia.
  - replace ((48 <=? 87 + d) && (87 + d <=? 57))%N with false.
    + replace ((97 <=? 87 + d) && (87 + d <=? 102))%N with true.
      * f_equal; lia.
      * symmetry. apply andb_true_intro; split; apply N.leb_le; lia.
    + symmetry. apply andb_false_intro2. apply N.leb_gt; lia.
Qed.

Lemma hex_value_app (acc : N) (a b : str) :
  hex_value acc (a ++ b) =
  match hex_value acc a with
  | Some v => hex_value v b
  | None => None
  end.
Proof.
  revert acc; induction a as [|c a IH]; intros acc; simpl; [reflexivity|].
  destruct (hex_digit_value c); [apply IH | reflexivity].
Qed.

(** The digits of [format_x number] are those of [number] in base 16. *)
Lemma hex_value_format_x (number : N) :
  hex_value 0 (format_x number) = Some number.
Proof.
  induction number as [number IH] using (well_founded_induction N.lt_wf_0).
  rewrite format_x_eq.
  destruct (N.ltb_spec number 16) as [L|L].
  - cbn [hex_value]. rewrite hex_digit_value_hex_digit by exact L.
    f_equal; lia.
  - rewrite hex_value_app, IH by (apply N.div_lt; lia).
    cbn [hex_value].
    rewrite hex_digit_value_hex_digit by (apply N.mod_lt; lia).
    f_equal. symmetry. apply N.div_mod. discriminate.
Qed.

Lemma is_lower_hex_hex_digit (d : N) :
  (d < 16)%N -> is_lower_hex (hex_digit d) = true.
Proof.
  intros H. unfold is_lower_hex.
  now rewrite hex_digit_value_hex_digit.
Qed.

Lemma format_x_lower_hex (number : N) :
  forallb is_lower_hex (format_x number) = true.
Proof.
  induction number as [number IH] using (well_founded_induction N.lt_wf_0).
  rewrite format_x_eq.
  destruct (N.ltb_spec number 16) as [L|L].
  - simpl. now rewrite is_lower_hex_hex_digit.
  - rewrite forallb_app, IH by (apply N.div_lt; lia).
    simpl. rewrite is_lower_hex_hex_digit; [reflexivity|].
    apply N.mod_lt; lia.
Qed.

(** No leading zero, except for 0 itself. *)
Lemma format_x_head (number : N) :
  (0 < number)%N -> hd 48%N (format_x number) <> 48%N.
Proof.
  induction number as [number IH] using (well_founded_induction N.lt_wf_0).
  intros Hpos. rewrite format_x_eq.
  destruct (N.ltb_spec number 16) as [L|L].
  - simpl. unfold hex_digit. destruct (N.ltb_spec number 10); lia.
  - assert (0 < number / 16)%N as Hq
      by (apply N.div_str_pos; lia).
    assert (number / 16 < number)%N as Hlt by (apply N.div_lt; lia).
    specialize (IH (number / 16)%N Hlt Hq).
    pose proof (format_x_length_pos (number / 16)).
    destruct (format_x (number / 16)); [simpl in *; lia | exact IH].
Qed.

Lemma format_02x_short (number : N) :
  (number < 16)%N -> format_02x number = 48%N :: format_x number.
Proof.
  intros H. unfold format_02x, zfill.
  now rewrite format_x_length_1.
Qed.

Lemma format_02x_long (number : N) :
  (16 <= number)%N -> format_02x number = format_x number.
Proof.
  intros H. unfold format_02x, zfill.
  assert (2 <= length (format_x number)) as Hl.
  { destruct (N.lt_ge_cases number 256).
    - rewrite format_x_length_2; lia.
    - pose proof (format_x_length_3 H0); lia. }
  replace (2 - length (format_x number)) with 0 by lia. reflexivity.
Qed.

Lemma hex_value_format_02x (number : N) :
  hex_value 0 (format_02x number) = Some number.
Proof.
  destruct (N.lt_ge_cases number 16) as [L|L].
  - rewrite format_02x_short by exact L. simpl. apply hex_value_format_x.
  - rewrite format_02x_long by exact L. apply hex_value_format_x.
Qed.

Lemma format_02x_lower_hex (number : N) :
  forallb is_lower_hex (format_02x number) = true.
Proof.
  destruct (N.lt_ge_cases number 16) as [L|L].
  - rewrite format_02x_short by exact L. simpl. apply format_x_lower_hex.
  - rewrite format_02x_long by exact L. apply format_x_lower_hex.
Qed.

Lemma format_02x_length (number : N) :
  ((number < 256)%N -> length (format_02x number) = 2) /\
  ((256 <= number)%N -> 3 <= length (format_02x number)).
Proof.
  split; intros H.
  - destruct (N.lt_ge_cases number 16) as [L|L].
    + rewrite format_02x_short by exact L. simpl.
      now rewrite format_x_length_1.
    + rewrite format_02x_long by exact L. apply format_x_length_2; lia.
  - rewrite format_02x_long by lia. now apply format_x_length_3.
Qed.

(** ** [int] and [as_hex] on channels *)

Section Channels.

Variable rt : runtime.

Lemma decimal_value_total (d : str) (acc : N) :
  forallb (isdecimal rt) d = true ->
  exists number, decimal_value rt acc d = Some number.
Proof.
  revert acc; induction d as [|c d IH]; intros acc H; simpl in *.
  - now exists acc.
  - apply andb_prop in H as [Hc Hd]. unfold isdecimal in Hc.
    destruct (to_decimal rt c); [now apply IH | discriminate].
Qed.

Lemma int_channel (d : str) :
  digit_string rt d ->
  int rt d = if int_accepts rt d then Ok (channel_value rt d)
             else Raise ValueError.
Proof.
  intros [Hne Hd]. unfold int, int_accepts, channel_value.
  destruct d as [|c d]; [contradiction|].
  destruct (decimal_value_total (c :: d) 0%N Hd) as [number ->].
  now destruct (_ && _ && _).
Qed.

Lemma as_hex_channel (d : str) :
  digit_string rt d ->
  as_hex rt d = if int_accepts rt d then Ok (format_02x (channel_value rt d))
                else Raise ValueError.
Proof.
  intros H. unfold as_hex. rewrite (int_channel H).
  now destruct (int_accepts rt d).
Qed.

End Channels.

(** ** [migrate_color] *)

Section Migration.

Variable rt : runtime.

Lemma groups_of_inj (m m' : str * str * str) :
  groups_of m = groups_of m' -> m = m'.
Proof.
  destruct m as [[a b] c], m' as [[a' b'] c']. simpl. congruence.
Qed.

Lemma re_match_selects (line : str) (m : str * str * str) :
  re_match rt color_pattern line = Some (groups_of m) <->
  last_color rt line = Some m.
Proof.
  rewrite re_match_color_pattern.
  destruct (last_color rt line) as [m'|]; simpl; split; try discriminate.
  - intros [= H]. f_equal. now apply groups_of_inj.
  - now intros [= ->].
Qed.

Lemma re_match_none (line : str) :
  re_match rt color_pattern line = None <-> last_color rt line = None.
Proof.
  rewrite re_match_color_pattern.
  destruct (last_color rt line); simpl; split; congruence.
Qed.

Lemma map_as_hex_channels (g1 g2 g3 : str) :
  digit_string rt g1 -> digit_string rt g2 -> digit_string rt g3 ->
  x <- map_as_hex rt [g1; g2; g3] ;; Ok (join x) =
  if all_accepted rt g1 g2 g3 then Ok (hex_color rt g1 g2 g3)
  else Raise ValueError.
Proof.
  intros D1 D2 D3. unfold all_accepted. cbn [map_as_hex].
  rewrite (as_hex_channel D1), (as_hex_channel D2), (as_hex_channel D3).
  destruct (int_accepts rt g1); [|reflexivity].
  destruct (int_accepts rt g2); [|reflexivity].
  destruct (int_accepts rt g3); [|reflexivity].
  simpl. unfold hex_color, join. simpl. now rewrite app_nil_r.
Qed.

(** What [migrate_color] returns, by the colour its pattern selects. *)
Lemma migrate_color_selected (line g1 g2 g3 : str) :
  last_color rt line = Some (g1, g2, g3) ->
  migrate_color rt line =
  if all_accepted rt g1 g2 g3
  then Ok (replace (color_literal g1 g2 g3) (hex_color rt g1 g2 g3) line)
  else Raise ValueError.
Proof.
  intros H. rewrite migrate_color_last_color, H.
  apply last_color_inv in H as (D1 & D2 & D3 & _).
  pose proof (map_as_hex_channels D1 D2 D3) as E.
  destruct (map_as_hex rt [g1; g2; g3]) as [parts|e]; simpl in *;
    destruct (all_accepted rt g1 g2 g3); congruence.
Qed.

Lemma migrate_color_unselected (line : str) :
  last_color rt line = None -> migrate_color rt line = Ok line.
Proof. intros H. now rewrite migrate_color_last_color, H. Qed.

(** *** The characters of the two texts of the replacement *)

Lemma color_literal_head (g1 g2 g3 : str) :
  digit_string rt g1 -> digit_string rt g2 -> digit_string rt g3 ->
  exists t, color_literal g1 g2 g3 = 114%N :: t /\ ~ In 114%N t.
Proof.
  intros [_ D1] [_ D2] [_ D3]. rewrite forallb_forall in D1, D2, D3.
  eexists; split; [reflexivity|].
  assert (isdecimal rt 114%N = false) as Hr by now rewrite isdecimal_ascii.
  simpl. intros H.
  repeat match goal with
         | H : _ \/ _ |- _ => destruct H as [H|H]
         | H : In 114%N ?g, D : forall x, In x ?g -> _ |- _ =>
             apply D in H; congruence
         | H : In _ (_ ++ _) |- _ => apply in_app_iff in H
         | H : In _ (_ :: _) |- _ => destruct H as [H|H]
         | H : In _ [] |- _ => contradiction
         | H : _ = 114%N |- _ => discriminate H
         end.
Qed.

Lemma color_literal_not_empty (g1 g2 g3 : str) : color_literal g1 g2 g3 <> [].
Proof. discriminate. Qed.

Lemma count_newline_color_literal (g1 g2 g3 : str) :
  digit_string rt g1 -> digit_string rt g2 -> digit_string rt g3 ->
  count newline (color_literal g1 g2 g3) = 0.
Proof.
  intros D1 D2 D3. apply count_zero_iff. intros H.
  now destruct (color_literal_plain D1 D2 D3 H).
Qed.

Lemma lower_hex_not_in (c : char) (s : str) :
  is_lower_hex c = false -> forallb is_lower_hex s = true -> ~ In c s.
Proof.
  intros Hc Hs Hin. rewrite forallb_forall in Hs.
  specialize (Hs c Hin). congruence.
Qed.

Lemma hex_color_lower_hex (g1 g2 g3 : str) :
  forallb is_lower_hex (hex_color rt g1 g2 g3) = true.
Proof.
  unfold hex_color. now rewrite !forallb_app, !format_02x_lower_hex.
Qed.

Lemma count_newline_hex_color (g1 g2 g3 : str) :
  count newline (hex_color rt g1 g2 g3) = 0.
Proof.
  apply count_zero_iff.
  apply lower_hex_not_in; [reflexivity | apply hex_color_lower_hex].
Qed.

(** [migrate_color] keeps the newlines of the line. *)
Lemma migrate_color_count_newline (line new_line : str) :
  migrate_color rt line = Ok new_line ->
  count newline new_line = count newline line.
Proof.
  destruct (last_color rt line) as [[[g1 g2] g3]|] eqn:E.
  - rewrite (migrate_color_selected _ E).
    destruct (all_accepted rt g1 g2 g3); [|discriminate].
    intros H.
    replace new_line
      with (replace (color_literal g1 g2 g3) (hex_color rt g1 g2 g3) line)
      by congruence.
    apply last_color_inv in E as (D1 & D2 & D3 & _).
    apply count_replace.
    + apply color_literal_not_empty.
    + now apply count_newline_color_literal.
    + apply count_newline_hex_color.
  - rewrite (migrate_color_unselected _ E). now intros [= <-].
Qed.

End Migration.

(** ** [migrate] and the loop *)

Section Loop.

Variable rt : runtime.

Lemma bind_ok (A : Type) (m : result A) : (x <- m ;; Ok x) = m.
Proof. now destruct m. Qed.

Lemma migrate_unfold (line : str) : migrate rt line = migrate_color rt line.
Proof. unfold migrate, migrators. simpl. apply bind_ok. Qed.

Lemma migrate_count_newline (line new_line : str) :
  migrate rt line = Ok new_line ->
  count newline new_line = count newline line.
Proof. rewrite migrate_unfold. apply migrate_color_count_newline. Qed.

Lemma migrate_no_quoted_color (line : str) :
  no_quoted_color rt line -> migrate rt line = Ok line.
Proof.
  intros H. rewrite migrate_unfold. apply migrate_color_unselected.
  apply first_color_none_last. now apply first_color_none_iff.
Qed.

Lemma main_returns (stdin : list str) :
  forallb (fun line => returns (migrate rt line)) stdin = true ->
  exists written,
    main rt stdin = (written, None) /\
    Forall2 (fun line new_line => migrate rt line = Ok new_line)
            stdin written.
Proof.
  induction stdin as [|line rest IH]; simpl; intros H.
  - exists []. split; [reflexivity | constructor].
  - apply andb_prop in H as [Hl Hr].
    destruct (IH Hr) as (written & E & F).
    destruct (migrate rt line) as [new_line|e] eqn:El; [|discriminate].
    exists (new_line :: written). rewrite E. split; [reflexivity|].
    now constructor.
Qed.

Lemma count_concat_migrate (stdin written : list str) :
  Forall2 (fun line new_line => migrate rt line = Ok new_line)
          stdin written ->
  count newline (concat written) = count newline (concat stdin).
Proof.
  induction 1 as [|line new_line stdin written H _ IH]; [reflexivity|].
  simpl. rewrite !count_app, IH. f_equal. now apply migrate_count_newline.
Qed.

End Loop.

(** ** When [migrate_color] returns *)

Section Limit.

Variable rt : runtime.

Lemma migrate_color_cases (line : str) :
  (last_color rt line = None /\ migrate_color rt line = Ok line) \/
  (exists g1 g2 g3,
      last_color rt line = Some (g1, g2, g3) /\
      migrate_color rt line =
      if all_accepted rt g1 g2 g3
      then Ok (replace (color_literal g1 g2 g3) (hex_color rt g1 g2 g3) line)
      else Raise ValueError).
Proof.
  destruct (last_color rt line) as [[[g1 g2] g3]|] eqn:E.
  - right. exists g1, g2, g3. split; [reflexivity|].
    now apply migrate_color_selected.
  - left. split; [reflexivity|]. now apply migrate_color_unselected.
Qed.

Lemma int_accepts_short (d : str) :
  max_str_digits rt = 0 \/ length d <= str_digits_check_threshold \/
  length d <= max_str_digits rt ->
  int_accepts rt d = true.
Proof.
  intros H. unfold int_accepts. apply negb_true_iff.
  destruct (Nat.ltb_spec str_digits_check_threshold (length d)); simpl;
    [|reflexivity].
  destruct (Nat.ltb_spec 0 (max_str_digits rt)); simpl; [|reflexivity].
  apply Nat.ltb_ge. lia.
Qed.

Lemma color_literal_length (g1 g2 g3 : str) :
  length (color_literal g1 g2 g3) = 8 + length g1 + length g2 + length g3.
Proof.
  unfold color_literal. rewrite !length_app. simpl. lia.
Qed.

Lemma all_accepted_short (line g1 g2 g3 : str) :
  last_color rt line = Some (g1, g2, g3) ->
  max_str_digits rt = 0 \/ length line <= str_digits_check_threshold \/
  length line <= max_str_digits rt ->
  all_accepted rt g1 g2 g3 = true.
Proof.
  intros E H. apply last_color_inv in E as (_ & _ & _ & pre & post & E & _).
  apply (f_equal (@length char)) in E.
  unfold quoted in E. rewrite !length_app in E. cbn [length] in E.
  rewrite length_app, color_literal_length in E. cbn [length] in E.
  unfold all_accepted.
  rewrite !int_accepts_short; [reflexivity | lia | lia | lia].
Qed.

End Limit.

(** * The claims *)

(** C1, as the script has it.  The pattern asks for the double quote right
    before [rgb_(]: the colour is the whole content of the quoted string.
    For a line with such a quoted colour, no newline before it and no
    further quoted colour after it before the first newline (the pattern
    does not match from the closing quote on, which may open a further
    one), and channels that [int] accepts, [migrate_color] returns the line with the text
    [rgb_(g1,g2,g3)] replaced by the hexadecimal colour; when that text
    occurs nowhere else in the line, the quoted colour is replaced where it
    stands and the rest of the line is kept. *)
Theorem migrate_color_quoted_color
        (rt : runtime) (pre post g1 g2 g3 : str) :
  digit_string rt g1 -> digit_string rt g2 -> digit_string rt g3 ->
  all_accepted rt g1 g2 g3 = true ->
  ~ In newline pre ->
  re_match rt color_pattern (quote :: post) = None ->
  let old := color_literal g1 g2 g3 in
  let line := pre ++ quoted old ++ post in
  migrate_color rt line = Ok (replace old (hex_color rt g1 g2 g3) line) /\
  (contains old pre = false -> contains old post = false ->
   migrate_color rt line =
   Ok (pre ++ quoted (hex_color rt g1 g2 g3) ++ post)).
Proof.
  intros D1 D2 D3 Hacc Hpre Hpost old line.
  assert (last_color rt line = Some (g1, g2, g3)) as E.
  { apply last_color_intro; auto. now apply re_match_none. }
  assert (migrate_color rt line =
          Ok (replace old (hex_color rt g1 g2 g3) line)) as Hm
      by now rewrite (migrate_color_selected rt line E), Hacc.
  split; [exact Hm|]. intros Hcpre Hcpost. rewrite Hm. f_equal.
  destruct (color_literal_head D1 D2 D3) as (t & Eold & Ht).
  unfold line, old in *. rewrite Eold in *.
  apply replace_quoted; auto.
  - discriminate.
  - intros Hq. assert (In quote (color_literal g1 g2 g3)) as Hin
      by (rewrite Eold; now right).
    now destruct (color_literal_plain D1 D2 D3 Hin).
Qed.

Lemma migrate_color_quoted_color_witness :
  migrate_color cpython_default
    (py "color: " ++ quoted (py "rgb_(0,128,255)") ++ [newline]) =
  Ok (py "color: " ++ quoted (py "0080ff") ++ [newline]).
Proof.
  refine (proj2 (@migrate_color_quoted_color cpython_default
                   (py "color: ") [newline] (py "0") (py "128") (py "255")
                   _ _ _ _ _ _) _ _);
    try (split; [discriminate | reflexivity]); try reflexivity.
  intros H. repeat (destruct H as [H|H]; [discriminate|]). exact H.
Defined.

(** C1, as the claim states it, fails on its own example: when other text
    stands between the opening quote and [rgb_(], the pattern does not
    match and the line is returned unchanged. *)
Lemma migrate_color_prefixed_literal_unchanged :
  let line := py "color: " ++ quoted (py "theme_rgb_(0,128,255)") in
  re_match cpython_default color_pattern line = None /\
  migrate_color cpython_default line = Ok line /\
  migrate_color cpython_default line <>
  Ok (py "color: " ++ quoted (py "theme0080ff")).
Proof.
  split; [vm_compute; reflexivity|].
  split; [vm_compute; reflexivity|].
  vm_compute. discriminate.
Qed.

(** C2, as the script has it.  Of two quoted colours on a line, with no
    newline before the second, the pattern selects the second when no
    further quoted colour follows it before the first newline: the match is
    the last one, the one furthest to the right, and its channels are the
    ones rendered. *)
Theorem re_match_selects_last
        (rt : runtime) (pre mid post g1 g2 g3 h1 h2 h3 : str) :
  digit_string rt g1 -> digit_string rt g2 -> digit_string rt g3 ->
  digit_string rt h1 -> digit_string rt h2 -> digit_string rt h3 ->
  ~ In newline pre -> ~ In newline mid ->
  re_match rt color_pattern (quote :: post) = None ->
  let line := pre ++ quoted (color_literal g1 g2 g3) ++ mid ++
              quoted (color_literal h1 h2 h3) ++ post in
  re_match rt color_pattern line = Some (groups_of (h1, h2, h3)) /\
  migrate_color rt line =
  if all_accepted rt h1 h2 h3
  then Ok (replace (color_literal h1 h2 h3) (hex_color rt h1 h2 h3) line)
  else Raise ValueError.
Proof.
  intros G1 G2 G3 H1 H2 H3 Hpre Hmid Hpost line.
  assert (last_color rt line = Some (h1, h2, h3)) as E.
  { unfold line. rewrite !app_assoc. rewrite <- (app_assoc _ _ post).
    apply last_color_intro; auto.
    - rewrite !in_app_iff. intros [[H|H]|H]; auto.
      unfold quoted in H. destruct H as [H|H]; [discriminate|].
      apply in_app_iff in H as [H|[H|[]]]; [|discriminate].
      now destruct (color_literal_plain G1 G2 G3 H).
    - now apply re_match_none. }
  split; [now apply re_match_selects | now apply migrate_color_selected].
Qed.

Lemma re_match_selects_last_witness :
  re_match cpython_default color_pattern
           (quoted (py "rgb_(1,2,3)") ++ py " " ++ quoted (py "rgb_(4,5,6)")) =
  Some (groups_of (py "4", py "5", py "6")).
Proof.
  refine (proj1 (@re_match_selects_last cpython_default [] (py " ") []
                   (py "1") (py "2") (py "3") (py "4") (py "5") (py "6")
                   _ _ _ _ _ _ _ _ _));
    try (split; [discriminate | reflexivity]).
  - intros [].
  - intros [H|[]]; discriminate.
  - reflexivity.
Defined.

(** C2, as the claim states it, fails: on a line with two quoted colours the
    first one, furthest to the left, is not the one selected, and it is left
    as it was. *)
Lemma re_match_selects_not_first :
  let line :=
    quoted (py "rgb_(1,2,3)") ++ py " " ++ quoted (py "rgb_(4,5,6)") in
  first_color cpython_default line = Some (py "1", py "2", py "3") /\
  re_match cpython_default color_pattern line =
  Some (groups_of (py "4", py "5", py "6")) /\
  migrate_color cpython_default line =
  Ok (quoted (py "rgb_(1,2,3)") ++ py " " ++ quoted (py "040506")).
Proof.
  repeat split; vm_compute; reflexivity.
Qed.

(** C3, as the script has it.  When the text [rgb_(g1,g2,g3)] of the
    selected colour occurs several times in the line, every occurrence is
    replaced by the hexadecimal colour, not the first one only: the line is
    made of pieces without that text, joined by it, and becomes the same
    pieces joined by the colour. *)
Theorem migrate_color_replaces_every_occurrence
        (rt : runtime) (line g1 g2 g3 : str) :
  re_match rt color_pattern line = Some (groups_of (g1, g2, g3)) ->
  all_accepted rt g1 g2 g3 = true ->
  let old := color_literal g1 g2 g3 in
  (exists segs,
      line = sep_join old segs /\
      Forall (fun seg => contains old seg = false) segs) /\
  (forall segs,
      line = sep_join old segs ->
      Forall (fun seg => contains old seg = false) segs ->
      migrate_color rt line = Ok (sep_join (hex_color rt g1 g2 g3) segs)).
Proof.
  intros Hm Hacc old. split.
  - destruct (@sep_join_exists old line) as (segs & _ & H);
      [apply color_literal_not_empty | now exists segs].
  - intros segs -> Hsegs. apply re_match_selects in Hm.
    rewrite (migrate_color_selected rt _ Hm), Hacc. f_equal.
    apply last_color_inv in Hm as (D1 & D2 & D3 & _).
    destruct (color_literal_head D1 D2 D3) as (t & Eold & Ht).
    unfold old in *. rewrite Eold in *.
    now apply replace_sep_join.
Qed.

Lemma migrate_color_replaces_every_occurrence_witness :
  migrate_color cpython_default
    (quoted (py "rgb_(1,2,3)") ++ py " " ++ quoted (py "rgb_(1,2,3)")) =
  Ok (quoted (py "010203") ++ py " " ++ quoted (py "010203")).
Proof.
  refine (proj2 (@migrate_color_replaces_every_occurrence cpython_default
                   (quoted (py "rgb_(1,2,3)") ++ py " " ++
                    quoted (py "rgb_(1,2,3)"))
                   (py "1") (py "2") (py "3") _ _)
                [[quote]; quote :: py " " ++ [quote]; [quote]] _ _).
  - reflexivity.
  - reflexivity.
  - reflexivity.
  - repeat constructor.
Defined.

(** C3, as the claim states it, fails: on a line with the same quoted colour
    twice, the second occurrence of the text is replaced as well, where a
    replacement of the first occurrence only would leave it. *)
Lemma migrate_color_replaces_second_occurrence :
  let line :=
    quoted (py "rgb_(1,2,3)") ++ py " " ++ quoted (py "rgb_(1,2,3)") in
  migrate_color cpython_default line =
  Ok (quoted (py "010203") ++ py " " ++ quoted (py "010203")) /\
  replace_first (py "rgb_(1,2,3)") (py "010203") line =
  quoted (py "010203") ++ py " " ++ quoted (py "rgb_(1,2,3)") /\
  migrate_color cpython_default line <>
  Ok (replace_first (py "rgb_(1,2,3)") (py "010203") line).
Proof.
  split; [vm_compute; reflexivity|].
  split; [vm_compute; reflexivity|].
  vm_compute. discriminate.
Qed.

(** C4, as the script has it.  A captured channel is rendered as its base-10
    value in lowercase hexadecimal, padded with ['0'] to two digits and at
    its natural width, more than two digits, from 256 on; the value is not
    clamped.  The only check is that of [int] on the number of digits: a
    channel longer than 640 digits and than the interpreter's limit, when
    the limit is not 0, raises [ValueError] and is not rendered. *)
Theorem as_hex_renders_channel (rt : runtime) (d : str) :
  digit_string rt d ->
  let number := channel_value rt d in
  decimal_value rt 0 d = Some number /\
  as_hex rt d = (if int_accepts rt d then Ok (format_02x number)
                 else Raise ValueError) /\
  hex_value 0 (format_02x number) = Some number /\
  forallb is_lower_hex (format_02x number) = true /\
  ((number < 16)%N -> format_02x number = [48%N; hex_digit number]) /\
  ((number < 256)%N -> length (format_02x number) = 2) /\
  ((256 <= number)%N ->
   2 < length (format_02x number) /\
   format_02x number = format_x number /\
   hd 48%N (format_02x number) <> 48%N).
Proof.
  intros D number. split.
  - unfold number, channel_value.
    destruct (@decimal_value_total rt d 0%N (proj2 D)) as [n ->].
    reflexivity.
  - split; [now apply as_hex_channel|].
    split; [apply hex_value_format_02x|].
    split; [apply format_02x_lower_hex|].
    split.
    { intros H. rewrite format_02x_short, format_x_eq by exact H.
      apply N.ltb_lt in H. now rewrite H. }
    split; [apply format_02x_length|].
    intros H. split; [now apply format_02x_length|].
    rewrite format_02x_long by lia.
    split; [reflexivity | apply format_x_head; lia].
Qed.

Lemma as_hex_renders_channel_witness :
  as_hex cpython_default (py "300") = Ok (py "12c") /\
  as_hex cpython_default (py "5") = Ok (py "05") /\
  (* the ARABIC-INDIC DIGITs THREE and ZERO *)
  as_hex cpython_default [1635%N; 1632%N] = Ok (py "1e").
Proof.
  split; [|split].
  - refine (proj1 (proj2 (@as_hex_renders_channel cpython_default
                            (py "300") _))).
    split; [discriminate | reflexivity].
  - refine (proj1 (proj2 (@as_hex_renders_channel cpython_default
                            (py "5") _))).
    split; [discriminate | reflexivity].
  - refine (proj1 (proj2 (@as_hex_renders_channel cpython_default
                            [1635%N; 1632%N] _))).
    split; [discriminate | reflexivity].
Defined.

(** C4, as the claim states it, fails for a channel of 4301 digits under
    the default limit of 4300: [int] raises and nothing is rendered. *)
Lemma as_hex_long_channel_raises :
  digit_string cpython_default long_channel /\
  as_hex cpython_default long_channel = Raise ValueError.
Proof.
  split; [split; [discriminate | vm_compute; reflexivity]|].
  vm_compute. reflexivity.
Qed.

(** C5.  A line in which no quoted colour ["rgb_(d1,d2,d3)"] occurs is
    returned as it is, character for character, its line terminator
    included. *)
Theorem migrate_color_no_match (rt : runtime) (line : str) :
  no_quoted_color rt line ->
  migrate_color rt line = Ok line /\ migrate rt line = Ok line.
Proof.
  intros H. rewrite <- migrate_unfold. split; now apply migrate_no_quoted_color.
Qed.

Lemma migrate_color_no_match_witness :
  migrate_color cpython_default (py "plain text, no match" ++ [newline]) =
  Ok (py "plain text, no match" ++ [newline]).
Proof.
  refine (proj1 (@migrate_color_no_match cpython_default
                   (py "plain text, no match" ++ [newline]) _)).
  apply first_color_none_iff. vm_compute. reflexivity.
Defined.

(** C6.  The two concrete lines of the specification: [name:
    "rgb_(255,255,255)"] becomes [name: "ffffff"] and ["rgb_(5,10,15)"]
    becomes ["050a0f"], whatever the interpreter's settings. *)
Theorem migrate_concrete_lines (rt : runtime) :
  migrate rt (py "name: " ++ quoted (py "rgb_(255,255,255)")) =
  Ok (py "name: " ++ quoted (py "ffffff")) /\
  migrate rt (quoted (py "rgb_(5,10,15)")) = Ok (quoted (py "050a0f")).
Proof.
  split; vm_compute; reflexivity.
Qed.

(** C7.  When the line that [migrate] returns holds no quoted colour any
    more, migrating it again returns it unchanged: the second run changes
    nothing. *)
Theorem migrate_idempotent (rt : runtime) (line migrated : str) :
  migrate rt line = Ok migrated ->
  no_quoted_color rt migrated ->
  migrate rt migrated = Ok migrated /\
  (l <- migrate rt line ;; migrate rt l) = migrate rt line.
Proof.
  intros H Hno. pose proof (migrate_no_quoted_color Hno) as E.
  split; [exact E|]. rewrite H. simpl. exact E.
Qed.

Lemma migrate_idempotent_witness :
  migrate cpython_default (py "fg: " ++ quoted (py "ff0080") ++ [newline]) =
  Ok (py "fg: " ++ quoted (py "ff0080") ++ [newline]).
Proof.
  refine (proj1 (@migrate_idempotent cpython_default
                   (py "fg: " ++ quoted (py "rgb_(255,0,128)") ++ [newline])
                   _ _ _)).
  - vm_compute. reflexivity.
  - apply first_color_none_iff. vm_compute. reflexivity.
Defined.

(** C8, as the script has it.  When no call of [migrate] raises, the loop
    writes one line for each line it reads, the result of [migrate] on that
    line, which has as many newline characters as the line read; the output
    then has as many newlines as the input.  (A call that raises ends the
    loop, and the lines from that one on are not written.) *)
Theorem main_writes_every_line (rt : runtime) (stdin : list str) :
  forallb (fun line => returns (migrate rt line)) stdin = true ->
  exists written,
    main rt stdin = (written, None) /\
    length written = length stdin /\
    Forall2 (fun line new_line =>
               migrate rt line = Ok new_line /\
               count newline new_line = count newline line)
            stdin written /\
    count newline (concat written) = count newline (concat stdin).
Proof.
  intros H. destruct (main_returns rt stdin H) as (written & E & F).
  exists written. split; [exact E|].
  split; [symmetry; eapply Forall2_length; exact F|].
  split; [|now apply (count_concat_migrate rt)].
  revert F. apply Forall2_impl. intros line new_line Hl.
  split; [exact Hl | now apply (migrate_count_newline rt)].
Qed.

Lemma main_writes_every_line_witness :
  exists written,
    main cpython_default
         [py "fg: " ++ quoted (py "rgb_(255,0,128)") ++ [newline];
          py "plain" ++ [newline]] = (written, None) /\
    length written = 2.
Proof.
  destruct (@main_writes_every_line cpython_default
              [py "fg: " ++ quoted (py "rgb_(255,0,128)") ++ [newline];
               py "plain" ++ [newline]] eq_refl)
    as (written & E & L & _).
  exists written. split; [exact E | exact L].
Defined.

(** C8, as the claim states it, fails on a stream with a line on which
    [migrate] raises: of three lines read, one is written. *)
Lemma main_stops_at_long_channel :
  main cpython_default
       [py "a" ++ [newline]; long_channel_line; py "b" ++ [newline]] =
  ([py "a" ++ [newline]], Some ValueError).
Proof. vm_compute. reflexivity. Qed.

(** C9.  The migrator is a list of line rewrites applied from left to right,
    each to the result of the one before; the list holds one rewrite,
    [migrate_color], so that [migrate] and [migrate_color] agree on every
    line, in the result as well as in the exception raised. *)
Theorem migrate_is_migrate_color (rt : runtime) (line : str) :
  migrators rt = [migrate_color rt] /\
  migrate rt line = apply_migrators (migrators rt) line /\
  (forall migrator ms l,
      apply_migrators (migrator :: ms) l =
      (l' <- migrator l ;; apply_migrators ms l')) /\
  apply_migrators [] line = Ok line /\
  migrate rt line = migrate_color rt line.
Proof.
  repeat split. apply migrate_unfold.
Qed.

(** C10, as the script has it.  [migrate] raises only [ValueError], and only
    when the pattern selects a colour of which a channel is refused by
    [int]: more digits than 640 and than a limit that is not 0.  The
    channels the pattern captures are non-empty strings of decimal digits,
    so that no other failure is reachable; with the limit disabled, or on a
    line of at most 640 characters, [migrate] returns. *)
Theorem migrate_raises_only_on_int_limit (rt : runtime) (line : str) :
  (forall m, re_match rt color_pattern line = Some m ->
     exists g1 g2 g3,
       m = groups_of (g1, g2, g3) /\
       digit_string rt g1 /\ digit_string rt g2 /\ digit_string rt g3) /\
  (forall e, migrate rt line = Raise e ->
     e = ValueError /\
     exists g1 g2 g3,
       re_match rt color_pattern line = Some (groups_of (g1, g2, g3)) /\
       all_accepted rt g1 g2 g3 = false) /\
  (forall g1 g2 g3,
     re_match rt color_pattern line = Some (groups_of (g1, g2, g3)) ->
     all_accepted rt g1 g2 g3 = false ->
     migrate rt line = Raise ValueError) /\
  (max_str_digits rt = 0 \/ length line <= str_digits_check_threshold \/
   length line <= max_str_digits rt ->
   exists new_line, migrate rt line = Ok new_line).
Proof.
  rewrite migrate_unfold. split; [|split; [|split]].
  - intros m H. rewrite re_match_color_pattern in H.
    destruct (last_color rt line) as [[[g1 g2] g3]|] eqn:E; [|discriminate].
    injection H as <-. exists g1, g2, g3. split; [reflexivity|].
    apply last_color_inv in E. tauto.
  - intros e He.
    destruct (migrate_color_cases rt line) as [[_ H]|(g1 & g2 & g3 & E & H)];
      rewrite H in He; [discriminate|].
    destruct (all_accepted rt g1 g2 g3) eqn:Hacc; [discriminate|].
    split; [congruence|].
    exists g1, g2, g3. split; [now apply re_match_selects | exact Hacc].
  - intros g1 g2 g3 E Hacc. apply re_match_selects in E.
    now rewrite (migrate_color_selected rt line E), Hacc.
  - intros Hlim.
    destruct (migrate_color_cases rt line) as [[_ H]|(g1 & g2 & g3 & E & H)];
      rewrite H; [now exists line|].
    rewrite (all_accepted_short rt line E Hlim). eauto.
Qed.

(** C10, as the claim states it, fails on a line whose colour has a channel
    of 4301 digits: under the default limit [migrate] raises. *)
Lemma migrate_long_channel_raises :
  re_match cpython_default color_pattern long_channel_line =
  Some (groups_of (long_channel, py "0", py "0")) /\
  migrate cpython_default long_channel_line = Raise ValueError.
Proof.
  split; vm_compute; reflexivity.
Qed.

(** * Further properties of the script *)

(** ** Auxiliary facts *)

Lemma startswith_snoc (old a : str) (c : char) :
  ~ In c old -> startswith old (a ++ [c]) = true -> startswith old a = true.
Proof.
  intros Hc E.
  destruct (le_lt_dec (length old) (length a)) as [Hl|Hl].
  - now apply startswith_shorter in E.
  - exfalso. pose proof (startswith_length _ _ E) as Hl'.
    rewrite length_app in Hl'. simpl in Hl'.
    apply startswith_same_length in E; [|rewrite length_app; simpl; lia].
    apply Hc. rewrite E. apply in_or_app. right. now left.
Qed.

(** A character that [old] does not hold, at the end of the string, stays
    where it is. *)
Lemma replace_snoc (old new s : str) (c : char) :
  old <> [] -> ~ In c old ->
  replace old new (s ++ [c]) = replace old new s ++ [c].
Proof.
  intros Hne Hc.
  apply replace_scan
    with (P := fun s r => replace old new (s ++ [c]) = r ++ [c]).
  - exact Hne.
  - simpl. rewrite replace_miss, replace_nil; auto.
    destruct (startswith old [c]) eqn:E; [|reflexivity].
    apply (startswith_snoc old [] c Hc) in E.
    destruct old; [contradiction | discriminate].
  - intros b IH. rewrite <- !app_assoc, replace_hit, IH by exact Hne.
    reflexivity.
  - intros x t Hx IH. change ((x :: t) ++ [c]) with (x :: t ++ [c]).
    rewrite replace_miss, IH; [reflexivity | exact Hne |].
    destruct (startswith old (x :: t ++ [c])) eqn:E; [|reflexivity].
    apply (startswith_snoc old (x :: t) c Hc) in E. congruence.
Qed.

(** The characters of [replace old new s] come from [s] or from [new]. *)
Lemma replace_chars (old new s : str) (x : char) :
  old <> [] -> In x (replace old new s) -> In x s \/ In x new.
Proof.
  intros Hne. revert x.
  apply replace_scan
    with (P := fun s r => forall x, In x r -> In x s \/ In x new).
  - exact Hne.
  - intros x [].
  - intros b IH x H. apply in_app_iff in H as [H|H]; [now right|].
    destruct (IH x H) as [H'|H']; [left | now right].
    apply in_or_app. now right.
  - intros c t _ IH x [->|H]; [left; now left|].
    destruct (IH x H) as [H'|H']; [left; now right | now right].
Qed.


Section MoreFacts.

Variable rt : runtime.

(** A newline at the end of the string changes nothing to what starts the
    string as a quoted colour. *)
Lemma channels_snoc_newline (s : str) :
  channels rt (s ++ [newline]) = channels rt s.
Proof.
  destruct (channels rt s) as [[[g1 g2] g3]|] eqn:E.
  - apply channels_iff in E as (D1 & D2 & D3 & rest & ->).
    apply channels_iff. repeat (split; [assumption|]).
    exists (rest ++ [newline]). now rewrite <- app_assoc.
  - destruct (channels rt (s ++ [newline])) as [[[g1 g2] g3]|] eqn:E';
      [|reflexivity].
    apply channels_iff in E' as (D1 & D2 & D3 & rest & H).
    assert (channels rt s = Some (g1, g2, g3)) as C; [|congruence].
    apply channels_iff. repeat (split; [assumption|]).
    destruct (@exists_last _ rest) as (rest' & y & ->).
    + intros ->. rewrite app_nil_r in H. unfold quoted in H.
      change (quote :: color_literal g1 g2 g3 ++ [quote])
        with ((quote :: color_literal g1 g2 g3) ++ [quote]) in H.
      apply app_inj_tail in H as [_ H]. discriminate.
    + rewrite app_assoc in H. apply app_inj_tail in H as [H _].
      now exists rest'.
Qed.

Lemma last_color_snoc_newline (s : str) :
  last_color rt (s ++ [newline]) = last_color rt s.
Proof.
  induction s as [|c s IH]; [reflexivity|].
  change ((c :: s) ++ [newline]) with (c :: s ++ [newline]).
  cbn [last_color]. rewrite IH.
  change (c :: s ++ [newline]) with ((c :: s) ++ [newline]).
  now rewrite channels_snoc_newline.
Qed.

(** A quoted colour with no newline before it makes the pattern match. *)
Lemma last_color_occurrence (pre post g1 g2 g3 : str) :
  digit_string rt g1 -> digit_string rt g2 -> digit_string rt g3 ->
  ~ In newline pre ->
  exists m,
    last_color rt (pre ++ quoted (color_literal g1 g2 g3) ++ post) = Some m.
Proof.
  intros D1 D2 D3 Hpre.
  assert (channels rt (quoted (color_literal g1 g2 g3) ++ post)
          = Some (g1, g2, g3)) as Hch.
  { apply channels_iff. repeat (split; [assumption|]). now exists post. }
  assert (exists m, last_color rt (quoted (color_literal g1 g2 g3) ++ post)
                    = Some m) as [m Hm].
  { revert Hch. unfold quoted.
    change ((quote :: ?l ++ [quote]) ++ post)
      with (quote :: (l ++ [quote]) ++ post).
    intros Hch. cbn [last_color]. change (N.eqb quote newline) with false.
    cbv iota. destruct (last_color rt _) as [m|]; eauto. }
  exists m. now apply last_color_app.
Qed.

Lemma count_color_literal (g1 g2 g3 : str) (c : char) :
  digit_string rt g1 -> digit_string rt g2 -> digit_string rt g3 ->
  ~ In c (py "rgb_(,)") -> isdecimal rt c = false ->
  count c (color_literal g1 g2 g3) = 0.
Proof.
  intros D1 D2 D3 Hp Hd. apply count_zero_iff. intros H.
  destruct (color_literal_chars D1 D2 D3 H); [contradiction | congruence].
Qed.

Lemma migrate_raise_value_error (line : str) (e : exn) :
  migrate rt line = Raise e -> migrate rt line = Raise ValueError.
Proof.
  rewrite migrate_unfold.
  destruct (migrate_color_cases rt line) as [[_ H]|(g1 & g2 & g3 & _ & H)];
    rewrite H; [discriminate|].
  now destruct (all_accepted rt g1 g2 g3).
Qed.

Lemma int_accepts_shorter (d d' : str) :
  length d <= length d' -> int_accepts rt d' = true -> int_accepts rt d = true.
Proof.
  unfold int_accepts. intros Hl H. apply negb_true_iff in H.
  apply negb_true_iff.
  destruct (Nat.ltb_spec str_digits_check_threshold (length d)); simpl;
    [|reflexivity].
  destruct (Nat.ltb_spec 0 (max_str_digits rt)); simpl; [|reflexivity].
  destruct (Nat.ltb_spec str_digits_check_threshold (length d'));
    simpl in H; [|lia].
  destruct (Nat.ltb_spec 0 (max_str_digits rt)); simpl in H; [|lia].
  apply Nat.ltb_ge in H. apply Nat.ltb_ge. lia.
Qed.

End MoreFacts.

Lemma quoted_shape (pre l post : str) :
  pre ++ quoted l ++ post = (pre ++ [quote]) ++ l ++ quote :: post.
Proof.
  unfold quoted. rewrite <- !app_assoc. simpl. now rewrite <- app_assoc.
Qed.

Lemma contains_occurrence (old a b : str) :
  contains old (a ++ old ++ b) = true.
Proof.
  apply contains_app_r, contains_startswith, startswith_app.
Qed.

Lemma hex_color_head (rt : runtime) (g1 g2 g3 : str) :
  exists h t, hex_color rt g1 g2 g3 = h :: t /\ is_lower_hex h = true.
Proof.
  pose proof (hex_color_lower_hex rt g1 g2 g3) as H.
  unfold hex_color in *.
  destruct (format_02x_length (channel_value rt g1)) as [L1 L2].
  destruct (format_02x (channel_value rt g1)) as [|h t] eqn:E.
  - exfalso. destruct (N.lt_ge_cases (channel_value rt g1) 256) as [L|L];
      [specialize (L1 L) | specialize (L2 L)]; simpl in *; lia.
  - exists h, (t ++ format_02x (channel_value rt g2) ++
               format_02x (channel_value rt g3)).
    split; [reflexivity|]. simpl in H. now apply andb_prop in H.
Qed.

(** X1.  What [re.match] with the pattern of [migrate_color] selects, in
    terms of the text of the line: the groups are the channels of a quoted
    colour that has no newline before it and after whose opening quote the
    pattern matches no more; and there is no match exactly when every quoted
    colour of the line comes after a newline. *)
Theorem re_match_color_spec (rt : runtime) (line : str) :
  (forall g1 g2 g3,
     re_match rt color_pattern line = Some (groups_of (g1, g2, g3)) <->
     digit_string rt g1 /\ digit_string rt g2 /\ digit_string rt g3 /\
     exists pre post,
       line = pre ++ quoted (color_literal g1 g2 g3) ++ post /\
       ~ In newline pre /\
       re_match rt color_pattern (quote :: post) = None) /\
  (re_match rt color_pattern line = None <->
   forall pre post g1 g2 g3,
     digit_string rt g1 -> digit_string rt g2 -> digit_string rt g3 ->
     line = pre ++ quoted (color_literal g1 g2 g3) ++ post ->
     In newline pre).
Proof.
  split.
  - intros g1 g2 g3. rewrite re_match_selects. split.
    + intros H.
      apply last_color_inv in H as (D1 & D2 & D3 & pre & post & E & Hp & Hl).
      repeat (split; [assumption|]). exists pre, post.
      split; [exact E|]. split; [exact Hp | now apply re_match_none].
    + intros (D1 & D2 & D3 & pre & post & -> & Hp & Hl).
      apply last_color_intro; auto. now apply re_match_none.
  - rewrite re_match_none. split.
    + intros H pre post g1 g2 g3 D1 D2 D3 ->.
      destruct (in_dec N.eq_dec newline pre) as [Hin|Hin]; [exact Hin|].
      destruct (@last_color_occurrence rt pre post g1 g2 g3 D1 D2 D3 Hin)
        as [m Hm].
      congruence.
    + intros H.
      destruct (last_color rt line) as [[[g1 g2] g3]|] eqn:E; [|reflexivity].
      apply last_color_inv in E as (D1 & D2 & D3 & pre & post & E & Hp & _).
      exfalso. apply Hp. now apply (H pre post g1 g2 g3).
Qed.

(** X2.  The line terminator stays at the end of the line: on a line that
    ends with a newline, [migrate_color] does what it does on the line
    without it, and the newline follows the result. *)
Theorem migrate_color_keeps_terminator (rt : runtime) (body : str) :
  migrate_color rt (body ++ [newline]) =
  (new_body <- migrate_color rt body ;; Ok (new_body ++ [newline])).
Proof.
  destruct (last_color rt body) as [[[g1 g2] g3]|] eqn:E.
  - assert (last_color rt (body ++ [newline]) = Some (g1, g2, g3)) as E'
      by now rewrite last_color_snoc_newline.
    rewrite (migrate_color_selected rt _ E), (migrate_color_selected rt _ E').
    destruct (all_accepted rt g1 g2 g3); [|reflexivity].
    cbn [bind]. f_equal. apply last_color_inv in E as (D1 & D2 & D3 & _).
    apply replace_snoc; [apply color_literal_not_empty|].
    intros H. now destruct (color_literal_plain D1 D2 D3 H).
  - assert (last_color rt (body ++ [newline]) = None) as E'
      by now rewrite last_color_snoc_newline.
    now rewrite (migrate_color_unselected rt _ E),
      (migrate_color_unselected rt _ E').
Qed.

(** X3.  [migrate_color] keeps every character that is neither a lowercase
    hexadecimal digit, nor a decimal digit, nor one of [rgb_(,)]: the line
    returned has as many of them as the line given.  So the double quotes,
    the spaces and the colons of a theme line are all kept. *)
Theorem migrate_color_keeps_other_characters
        (rt : runtime) (line new_line : str) (c : char) :
  migrate_color rt line = Ok new_line ->
  is_lower_hex c = false -> isdecimal rt c = false ->
  ~ In c (py "rgb_(,)") ->
  count c new_line = count c line.
Proof.
  intros H Hh Hd Hp.
  destruct (migrate_color_cases rt line) as [[_ E]|(g1 & g2 & g3 & Hl & E)];
    rewrite E in H.
  - congruence.
  - destruct (all_accepted rt g1 g2 g3); [|discriminate].
    replace new_line
      with (replace (color_literal g1 g2 g3) (hex_color rt g1 g2 g3) line)
      by congruence.
    apply last_color_inv in Hl as (D1 & D2 & D3 & _).
    apply count_replace.
    + apply color_literal_not_empty.
    + now apply (count_color_literal D1 D2 D3).
    + apply count_zero_iff.
      apply lower_hex_not_in; [exact Hh | apply hex_color_lower_hex].
Qed.

Lemma migrate_color_keeps_other_characters_witness :
  count quote (py "fg: " ++ quoted (py "ff0080") ++ [newline]) =
  count quote (py "fg: " ++ quoted (py "rgb_(255,0,128)") ++ [newline]).
Proof.
  refine (@migrate_color_keeps_other_characters cpython_default
            (py "fg: " ++ quoted (py "rgb_(255,0,128)") ++ [newline])
            (py "fg: " ++ quoted (py "ff0080") ++ [newline]) quote
            _ _ _ _).
  - reflexivity.
  - reflexivity.
  - reflexivity.
  - intros H. repeat (destruct H as [H|H]; [discriminate|]). exact H.
Defined.

(** X4.  The only characters [migrate_color] brings into a line are
    lowercase hexadecimal digits: every character of the line returned is a
    character of the line given or one of [0-9a-f]. *)
Theorem migrate_color_adds_only_hex_digits
        (rt : runtime) (line new_line : str) (c : char) :
  migrate_color rt line = Ok new_line ->
  In c new_line ->
  In c line \/ is_lower_hex c = true.
Proof.
  intros H Hin.
  destruct (migrate_color_cases rt line) as [[_ E]|(g1 & g2 & g3 & _ & E)];
    rewrite E in H.
  - left. congruence.
  - destruct (all_accepted rt g1 g2 g3); [|discriminate].
    assert (new_line =
            replace (color_literal g1 g2 g3) (hex_color rt g1 g2 g3) line)
      as -> by congruence.
    apply replace_chars in Hin as [Hin|Hin];
      [now left | right | apply color_literal_not_empty].
    pose proof (hex_color_lower_hex rt g1 g2 g3) as Hh.
    rewrite forallb_forall in Hh. now apply Hh.
Qed.

Lemma migrate_color_adds_only_hex_digits_witness :
  In 102%N (py "fg: " ++ quoted (py "rgb_(255,0,128)")) \/
  is_lower_hex 102%N = true.
Proof.
  refine (@migrate_color_adds_only_hex_digits cpython_default
            (py "fg: " ++ quoted (py "rgb_(255,0,128)"))
            (py "fg: " ++ quoted (py "ff0080")) 102%N _ _).
  - reflexivity.
  - simpl. tauto.
Defined.

(** X5.  [migrate_color] returns the line it was given exactly when the
    pattern does not match it: a line on which the pattern matches is
    either changed or makes [int] raise. *)
Theorem migrate_color_unchanged_iff (rt : runtime) (line : str) :
  migrate_color rt line = Ok line <->
  re_match rt color_pattern line = None.
Proof.
  rewrite re_match_none. split.
  - intros H.
    destruct (last_color rt line) as [[[g1 g2] g3]|] eqn:E; [|reflexivity].
    exfalso. rewrite (migrate_color_selected rt _ E) in H.
    destruct (all_accepted rt g1 g2 g3); [|discriminate].
    assert (replace (color_literal g1 g2 g3) (hex_color rt g1 g2 g3) line
            = line) as Hr by congruence.
    clear H.
    apply last_color_inv in E as (D1 & D2 & D3 & pre & post & E & _).
    destruct (color_literal_head D1 D2 D3) as (t & Eold & Ht).
    destruct (@first_occurrence (color_literal g1 g2 g3) line)
      as (a & b & Ea & Ha).
    { apply color_literal_not_empty. }
    { rewrite E, quoted_shape. apply contains_occurrence. }
    rewrite Ea in Hr. rewrite Eold in Hr, Ha.
    rewrite replace_first_hit in Hr;
      [|discriminate | now apply no_overlap].
    apply app_inv_head in Hr.
    destruct (hex_color_head rt g1 g2 g3) as (h & t' & Eh & Hh).
    rewrite Eh in Hr. injection Hr as -> _. discriminate.
  - apply migrate_color_unselected.
Qed.

(** X6.  The loop writes the migrated lines in the order it reads them, up
    to the first line on which [migrate] raises and nothing from there on:
    what is written is the result of [migrate] on the first lines of the
    input, one for one; the loop ends without exception when all lines were
    written, and with [ValueError] on the line after the last one written
    otherwise. *)
Theorem main_writes_prefix (rt : runtime) (stdin : list str) :
  let (written, status) := main rt stdin in
  Forall2 (fun line new_line => migrate rt line = Ok new_line)
          (firstn (length written) stdin) written /\
  match status with
  | None => length written = length stdin
  | Some e =>
      e = ValueError /\
      exists line,
        nth_error stdin (length written) = Some line /\
        migrate rt line = Raise ValueError
  end.
Proof.
  induction stdin as [|line rest IH]; simpl.
  - split; [constructor | reflexivity].
  - destruct (migrate rt line) as [new_line|e] eqn:E.
    + destruct (main rt rest) as [written status]. destruct IH as [IH1 IH2].
      simpl. split; [now constructor|].
      destruct status as [e|]; [exact IH2 | now f_equal].
    + simpl. split; [constructor|].
      pose proof (migrate_raise_value_error rt line E) as E'.
      split; [congruence | now exists line].
Qed.

(** X7.  The loop keeps nothing from one line to the next: on a stream made
    of two parts it writes what it writes for the first part, followed by
    what it writes for the second, unless the first part already ended with
    an exception. *)
Theorem main_app (rt : runtime) (first second : list str) :
  main rt (first ++ second) =
  match main rt first with
  | (written, None) =>
      let (written', status) := main rt second in
      (written ++ written', status)
  | (written, Some e) => (written, Some e)
  end.
Proof.
  induction first as [|line rest IH]; simpl.
  - now destruct (main rt second).
  - destruct (migrate rt line) as [new_line|e]; [|reflexivity].
    rewrite IH. destruct (main rt rest) as [written [e|]]; [reflexivity|].
    now destruct (main rt second).
Qed.

(** X8.  The loop of [migrate] over its list of migrators composes them:
    the migrators of two lists put end to end are those of the first list,
    followed on their result by those of the second; an exception in the
    first list ends the call and the second list is not run. *)
Theorem apply_migrators_app
        (ms1 ms2 : list (str -> result str)) (line : str) :
  apply_migrators (ms1 ++ ms2) line =
  (line' <- apply_migrators ms1 line ;; apply_migrators ms2 line').
Proof.
  revert line; induction ms1 as [|migrator ms1 IH]; intros line; simpl.
  - reflexivity.
  - destruct (migrator line) as [line'|e]; simpl; [apply IH | reflexivity].
Qed.

Lemma isdecimal_zeros (rt : runtime) (n : nat) :
  forallb (isdecimal rt) (repeat 48%N n) = true.
Proof. induction n as [|n IH]; [reflexivity | exact IH]. Qed.

Lemma decimal_value_zeros (rt : runtime) (n : nat) (d : str) :
  decimal_value rt 0 (repeat 48%N n ++ d) = decimal_value rt 0 d.
Proof. induction n as [|n IH]; [reflexivity | exact IH]. Qed.

(** X9.  Zeros in front of a channel do not change what [as_hex] renders,
    as long as [int] accepts the longer string: [007] is rendered as [7]
    is, [07]. *)
Theorem as_hex_leading_zeros (rt : runtime) (zeros : nat) (d : str) :
  digit_string rt d ->
  int_accepts rt (repeat 48%N zeros ++ d) = true ->
  as_hex rt (repeat 48%N zeros ++ d) = as_hex rt d.
Proof.
  intros D Hacc.
  assert (digit_string rt (repeat 48%N zeros ++ d)) as D'.
  { destruct D as [Hne Hd]. split.
    - intros H. apply app_eq_nil in H as [_ H]. contradiction.
    - rewrite forallb_app. apply andb_true_intro.
      split; [apply isdecimal_zeros | exact Hd]. }
  assert (int_accepts rt d = true) as Hacc'.
  { apply (int_accepts_shorter rt d (repeat 48%N zeros ++ d));
      [rewrite length_app; apply Nat.le_add_l | exact Hacc]. }
  rewrite (as_hex_channel D), (as_hex_channel D'), Hacc, Hacc'.
  unfold channel_value. now rewrite decimal_value_zeros.
Qed.

Lemma as_hex_leading_zeros_witness :
  as_hex cpython_default (py "007") = as_hex cpython_default (py "7").
Proof.
  refine (@as_hex_leading_zeros cpython_default 2 (py "7") _ _).
  - split; [discriminate | reflexivity].
  - reflexivity.
Defined.



(** ** The length of the line *)

Lemma length_replace_le (old new s : str) :
  old <> [] -> length new <= length old ->
  length (replace old new s) <= length s.
Proof.
  intros Hne Hl.
  apply replace_scan with (P := fun s r => length r <= length s).
  - exact Hne.
  - reflexivity.
  - intros b IH. rewrite !length_app. apply Nat.add_le_mono; assumption.
  - intros c t _ IH. simpl. now apply le_n_S.
Qed.

Lemma format_x_length_le (k : nat) (number : N) :
  (number < 16 ^ N.of_nat (S k))%N -> length (format_x number) <= S k.
Proof.
  revert number; induction k as [|k IH]; intros number H.
  - rewrite format_x_length_1; [reflexivity | exact H].
  - rewrite format_x_eq. destruct (N.ltb_spec number 16) as [L|L].
    + simpl. apply le_n_S, Nat.le_0_l.
    + rewrite length_app. simpl. rewrite Nat.add_1_r. apply le_n_S, IH.
      apply N.Div0.div_lt_upper_bound.
      rewrite Nat2N.inj_succ, N.pow_succ_r' in H. exact H.
Qed.

Lemma format_02x_length_max (number : N) :
  length (format_02x number) = Nat.max 2 (length (format_x number)).
Proof.
  unfold format_02x, zfill. rewrite length_app, repeat_length.
  destruct (Nat.max_spec 2 (length (format_x number))) as [[H ->]|[H ->]].
  - replace (2 - length (format_x number)) with 0;
      [reflexivity | symmetry; apply Nat.sub_0_le, Nat.lt_le_incl, H].
  - apply Nat.sub_add, H.
Qed.

Section Lengths.

Variable rt : runtime.

(** The digit values of the interpreter's table are below 10. *)
Hypothesis decimal_digits :
  forall c v, unicode_decimal rt c = Some v -> (v < 10)%N.

Lemma to_decimal_bound (c : char) (v : N) :
  to_decimal rt c = Some v -> (v < 10)%N.
Proof.
  unfold to_decimal. destruct (c <? 128)%N; [|apply decimal_digits].
  destruct (N.leb_spec 48 c) as [L1|L1]; simpl; [|discriminate].
  destruct (N.leb_spec c 57) as [L2|L2]; [|discriminate].
  intros [= <-]. apply N.add_lt_mono_r with (p := 48%N).
  rewrite N.sub_add by exact L1.
  apply N.le_lt_trans with (m := 57%N); [exact L2 | reflexivity].
Qed.

Lemma decimal_value_bound (d : str) (acc number : N) :
  decimal_value rt acc d = Some number ->
  (number < (acc + 1) * 10 ^ N.of_nat (length d))%N.
Proof.
  revert acc; induction d as [|c d IH]; intros acc; simpl decimal_value.
  - intros [= <-]. simpl. rewrite N.mul_1_r. apply N.lt_add_pos_r.
    reflexivity.
  - destruct (to_decimal rt c) as [v|] eqn:E; [|discriminate].
    intros H. apply IH in H. apply to_decimal_bound in E.
    change (length (c :: d)) with (S (length d)).
    rewrite Nat2N.inj_succ, N.pow_succ_r'.
    eapply N.lt_le_trans; [exact H|].
    rewrite (N.mul_comm 10 (10 ^ _)), N.mul_assoc.
    rewrite <- (N.mul_comm (10 ^ _)), <- (N.mul_comm (10 ^ _)).
    rewrite <- N.mul_assoc. apply N.mul_le_mono_l.
    rewrite N.mul_add_distr_r, N.mul_1_l, (N.mul_comm acc 10).
    rewrite <- N.add_assoc. apply N.add_le_mono_l.
    apply N.le_succ_l in E. rewrite <- N.add_1_r in E. exact E.
Qed.

(** The hexadecimal digits of a channel are no more than its decimal
    digits. *)
Lemma format_x_channel_length (d : str) :
  digit_string rt d ->
  length (format_x (channel_value rt d)) <= length d.
Proof.
  intros [Hne Hd]. unfold channel_value.
  destruct (@decimal_value_total rt d 0%N Hd) as [number E]. rewrite E.
  apply decimal_value_bound in E. rewrite N.add_0_l, N.mul_1_l in E.
  destruct d as [|c d]; [contradiction|].
  apply format_x_length_le.
  eapply N.lt_le_trans; [exact E|].
  apply N.pow_le_mono_l. discriminate.
Qed.

Lemma hex_color_shorter (g1 g2 g3 : str) :
  digit_string rt g1 -> digit_string rt g2 -> digit_string rt g3 ->
  length (hex_color rt g1 g2 g3) + 5 <= length (color_literal g1 g2 g3).
Proof.
  intros D1 D2 D3. rewrite color_literal_length. unfold hex_color.
  rewrite !length_app, !format_02x_length_max.
  pose proof (format_x_channel_length D1) as L1.
  pose proof (format_x_channel_length D2) as L2.
  pose proof (format_x_channel_length D3) as L3.
  destruct D1 as [N1 _], D2 as [N2 _], D3 as [N3 _].
  destruct g1; [contradiction|]. destruct g2; [contradiction|].
  destruct g3; [contradiction|]. simpl length in *.
  lia.
Qed.

End Lengths.

Lemma arabic_indic_bound (c : char) (v : N) :
  unicode_decimal cpython_default c = Some v -> (v < 10)%N.
Proof.
  simpl. unfold arabic_indic.
  destruct ((1632 <=? c) && (c <=? 1641))%N eqn:E; [|discriminate].
  apply andb_prop in E as [E1 E2].
  apply N.leb_le in E1. apply N.leb_le in E2. intros [= <-]. lia.
Qed.

(** X11.  [migrate_color] never returns a longer line than it was given,
    and a line it changes gets shorter by five characters at least: each
    channel has no more hexadecimal digits than decimal digits, two at the
    least, and [rgb_(,,)] takes eight characters.  (The digit values of the
    interpreter's table are taken to be below 10.) *)
Theorem migrate_color_never_longer (rt : runtime) (line new_line : str) :
  (forall c v, unicode_decimal rt c = Some v -> (v < 10)%N) ->
  migrate_color rt line = Ok new_line ->
  length new_line <= length line /\
  (new_line <> line -> length new_line + 5 <= length line).
Proof.
  intros Htable H.
  destruct (migrate_color_cases rt line) as [[_ E]|(g1 & g2 & g3 & Hl & E)];
    rewrite E in H.
  - assert (new_line = line) as -> by congruence.
    split; [reflexivity | contradiction].
  - destruct (all_accepted rt g1 g2 g3); [|discriminate].
    assert (new_line =
            replace (color_literal g1 g2 g3) (hex_color rt g1 g2 g3) line)
      as -> by congruence.
    clear H E.
    apply last_color_inv in Hl as (D1 & D2 & D3 & pre & post & E & _).
    pose proof (hex_color_shorter Htable D1 D2 D3) as Hs.
    destruct (color_literal_head D1 D2 D3) as (t & Eold & Ht).
    rewrite Eold in *.
    assert (114%N :: t <> []) as Hne by discriminate.
    destruct (@first_occurrence (114%N :: t) line Hne) as (a & b & Ea & Ha).
    { rewrite E, quoted_shape. apply contains_occurrence. }
    assert (length (replace (114%N :: t) (hex_color rt g1 g2 g3) line) + 5
            <= length line) as Hlen; [|split; [lia | intros _; exact Hlen]].
    rewrite Ea.
    rewrite replace_first_hit; [|exact Hne | now apply no_overlap].
    assert (length (replace (114%N :: t) (hex_color rt g1 g2 g3) b)
            <= length b) as Hb by (apply length_replace_le; [exact Hne | lia]).
    rewrite !length_app. lia.
Qed.

Lemma migrate_color_never_longer_witness :
  length (py "fg: " ++ quoted (py "ff0080") ++ [newline]) <=
  length (py "fg: " ++ quoted (py "rgb_(255,0,128)") ++ [newline]).
Proof.
  refine (proj1 (@migrate_color_never_longer cpython_default
                   (py "fg: " ++ quoted (py "rgb_(255,0,128)") ++ [newline])
                   (py "fg: " ++ quoted (py "ff0080") ++ [newline]) _ _)).
  - exact arabic_indic_bound.
  - reflexivity.
Defined.
